(** * Playground model settings: value resolution and schema construction

    A shallow embedding of
    [frontend/src/components/organisms/playground/modelSettings.tsx]:
    the [ModelSettings] component, which seeds the settings form of the
    selected LLM provider and builds its yup validation schema, the
    [SettingsForm] component, which writes the edited values back into the
    playground state and renders the provider warning, and the handlers of
    [PromptPlayground].

    A JavaScript object is its own properties, a finite map from names to
    values, together with its prototype.  Reading a property looks at the own
    properties first and then along the prototype chain; assigning one
    creates an own property, except that [__proto__] reaches the accessor of
    [Object.prototype].  The settings objects, which the code shares between
    the playground state and the form and mutates while it builds them, live
    in a store indexed by references. *)

From Stdlib Require Import PrimFloat Ascii String.
From stdpp Require Import gmap strings list fin_maps.

(** ** Values *)

(** The objects of the host that a property read can reach through
    [Object.prototype]: that object itself (the result of its [__proto__]
    getter on a plain object) and the values of its properties, such as
    [Object.prototype.toString]; [HostBuiltin] stands for any other object
    of the host, named by its path. *)
Inductive host_object :=
  | ObjectPrototype
  | ObjectPrototypeMember (name : string)
  | HostBuiltin (path : string).

(** [ILLMSettings] is [Record<string, string | string[] | number | boolean>];
    [TFormInputValue] is the same union.  Numbers are IEEE doubles.  [VHost]
    is outside the declared union: it is what a read returns when the
    property is found on the prototype chain. *)
Inductive value :=
  | VStr (s : string)
  | VNum (x : float)
  | VBool (b : bool)
  | VTags (l : list string)
  | VHost (h : host_object).

(** The value of a select item is [string | number]. *)
Inductive item_value :=
  | IStr (s : string)
  | INum (x : float).

(** [i.value === value] between an item value and a setting value: strict
    equality never converts; strings compare by content, numbers by IEEE
    equality (so [NaN] differs from itself and [0] equals [-0]); a string or a
    number is never identical to a boolean, to an array or to any other
    object. *)
Definition strict_eq (iv : item_value) (v : value) : bool :=
  match iv, v with
  | IStr s, VStr t => String.eqb s t
  | INum x, VNum y => PrimFloat.eqb x y
  | _, _ => false
  end.

(** ToBoolean of a number, as in [if (input.min)]: [0], [-0] and [NaN] are
    falsy, every other number is truthy. *)
Definition truthy_number (x : float) : bool :=
  negb (PrimFloat.eqb x 0%float || PrimFloat.is_nan x).

(** ToBoolean of a string: only the empty string is falsy. *)
Definition truthy_string (s : string) : bool :=
  negb (String.eqb s "").

(** ** Objects *)

(** The prototype of an object: [Object.prototype], as for every object
    literal, or the object that an assignment to [__proto__] put there. *)
Inductive prototype :=
  | ProtoObject
  | ProtoExotic (v : value).

Record JsObject := {
  obj_own : gmap string value;
  obj_proto : prototype
}.

Abbreviation ILLMSettings := (gmap string value).

(** An object with the given own properties and [Object.prototype] as its
    prototype; [{}] is the one without own properties. *)
Definition plain_object (own : ILLMSettings) : JsObject :=
  {| obj_own := own; obj_proto := ProtoObject |}.

Definition empty_object : JsObject := plain_object ∅.

(** The property names of the standard [Object.prototype], apart from the
    accessor [__proto__]. *)
Definition object_prototype_names : list string :=
  [ "constructor"; "__defineGetter__"; "__defineSetter__"; "hasOwnProperty";
    "__lookupGetter__"; "__lookupSetter__"; "isPrototypeOf";
    "propertyIsEnumerable"; "toString"; "valueOf"; "toLocaleString" ].

Definition object_prototype_get (k : string) : option value :=
  if existsb (String.eqb k) object_prototype_names
  then Some (VHost (ObjectPrototypeMember k))
  else None.

(** What the host exposes on a chain that starts at another object than
    [Object.prototype] (an array, a function) is the host's business. *)
Class Host := {
  exotic_get : value → string → option value
}.

(** The value of the [__proto__] getter: the prototype itself. *)
Definition proto_value (pr : prototype) : value :=
  match pr with
  | ProtoObject => VHost ObjectPrototype
  | ProtoExotic v => v
  end.

(** The [__proto__] setter changes the prototype when it is given an object
    and does nothing when it is given a primitive value. *)
Definition as_prototype (v : value) : option prototype :=
  match v with
  | VTags _ => Some (ProtoExotic v)
  | VHost ObjectPrototype => Some ProtoObject
  | VHost _ => Some (ProtoExotic v)
  | VStr _ | VNum _ | VBool _ => None
  end.

(** The assignment [o[k] = v].  An own property is updated.  Otherwise
    [__proto__] reaches the setter of [Object.prototype], in which every
    chain here ends, and any other name becomes a new own property: neither
    [Object.prototype] nor an array holds a read-only property or a second
    accessor. *)
Definition js_assign (o : JsObject) (k : string) (v : value) : JsObject :=
  match obj_own o !! k, String.eqb k "__proto__" with
  | None, true =>
      match as_prototype v with
      | Some pr => {| obj_own := obj_own o; obj_proto := pr |}
      | None => o
      end
  | _, _ => {| obj_own := <[k := v]> (obj_own o); obj_proto := obj_proto o |}
  end.

Section Reading.

Context `{!Host}.

(** What the prototype chain of [o] holds for [k]. *)
Definition inherited (o : JsObject) (k : string) : option value :=
  if String.eqb k "__proto__" then Some (proto_value (obj_proto o))
  else
    match obj_proto o with
    | ProtoObject => object_prototype_get k
    | ProtoExotic v => exotic_get v k
    end.

(** The property read [o[k]]; [None] is [undefined]. *)
Definition js_get (o : JsObject) (k : string) : option value :=
  match obj_own o !! k with
  | Some v => Some v
  | None => inherited o k
  end.

End Reading.

(** ** Form inputs and providers *)

Record SelectItem := {
  item_label : option string;
  item_val : item_value
}.

(** [TFormInput], as the component reads it: [input.id], the discriminating
    [input.type] string and the optional properties [input.items],
    [input.min], [input.max] and [input.initial]. *)
Record TFormInput := {
  input_id : string;
  input_type : string;
  input_items : option (list SelectItem);
  input_min : option float;
  input_max : option float;
  input_initial : option value
}.

Record ILLMProvider := {
  provider_id : string;
  provider_name : string;
  provider_inputs : list TFormInput;
  provider_is_chat : bool
}.

(** ** The store of settings objects *)

Abbreviation ref := positive.
Abbreviation Store := (gmap positive JsObject).

(** Following a reference.  A JavaScript reference always points to a live
    object; the store invariant [closedb] below says so for the references
    held by the playground state. *)
Definition deref_object (σ : Store) (l : ref) : JsObject :=
  default empty_object (σ !! l).

(** The own properties behind a reference: the value set proper. *)
Definition deref (σ : Store) (l : ref) : ILLMSettings :=
  obj_own (deref_object σ l).

(** The object literal [{}]: a new, empty object. *)
Definition alloc (σ : Store) : ref * Store :=
  let l := fresh (dom σ) in (l, <[l := empty_object]> σ).

(** The assignment [o[k] = v] through a reference. *)
Definition prop_write (l : ref) (k : string) (v : value) (σ : Store) : Store :=
  <[l := js_assign (deref_object σ l) k v]> σ.

(** [o || {}] for an optional object reference. *)
Definition or_empty (o : option ref) (σ : Store) : ref * Store :=
  match o with
  | Some l => (l, σ)
  | None => alloc σ
  end.

(** ** Playground state *)

Record IMessage := {
  message_template : option string
}.

(** The properties of a prompt that the playground components read. *)
Record IPrompt := {
  prompt_provider : option string;
  prompt_settings : option ref;
  prompt_messages : option (list IMessage);
  prompt_template : option string
}.

Record IPlayground := {
  pg_providers : option (list ILLMProvider);
  pg_prompt : option IPrompt;
  pg_originalPrompt : option IPrompt
}.

(** [playground?.prompt?.provider] *)
Definition activeProviderId (pg : IPlayground) : option string :=
  pg_prompt pg ≫= prompt_provider.

(** [playground?.prompt?.settings] and
    [playground?.originalPrompt?.settings] *)
Definition currentSettingsRef (pg : IPlayground) : option ref :=
  pg_prompt pg ≫= prompt_settings.

Definition origSettingsRef (pg : IPlayground) : option ref :=
  pg_originalPrompt pg ≫= prompt_settings.

(** [playground?.prompt?.settings || {}] and
    [playground?.originalPrompt?.settings || {}], as objects. *)
Definition currentObject (pg : IPlayground) (σ : Store) : JsObject :=
  from_option (deref_object σ) empty_object (currentSettingsRef pg).

Definition originalObject (pg : IPlayground) (σ : Store) : JsObject :=
  from_option (deref_object σ) empty_object (origSettingsRef pg).

(** The same as value sets: the own properties of these objects. *)
Definition currentValues (pg : IPlayground) (σ : Store) : ILLMSettings :=
  from_option (deref σ) ∅ (currentSettingsRef pg).

Definition originalValues (pg : IPlayground) (σ : Store) : ILLMSettings :=
  from_option (deref σ) ∅ (origSettingsRef pg).

(** The settings references of the playground state point into the store. *)
Definition settings_refs (pg : IPlayground) : list ref :=
  option_list (currentSettingsRef pg) ++ option_list (origSettingsRef pg).

Definition closedb (pg : IPlayground) (σ : Store) : bool :=
  forallb (λ l, bool_decide (is_Some (σ !! l))) (settings_refs pg).

(** Both settings objects of the playground state are plain: their
    prototype is [Object.prototype]. *)
Definition is_plain (o : JsObject) : bool :=
  match obj_proto o with
  | ProtoObject => true
  | ProtoExotic _ => false
  end.

Definition plainb (pg : IPlayground) (σ : Store) : bool :=
  is_plain (currentObject pg σ) && is_plain (originalObject pg σ).

(** ** Compatibility of a carried-over value *)

(** [Array.prototype.find]: the first element satisfying the predicate. *)
Definition js_find {A} (f : A → bool) (l : list A) : option A :=
  List.find f l.

(** [!!input?.items?.find((i) => i.value === value)] for a select, [true]
    otherwise.  The found element is an object, hence truthy. *)
Definition isSettingCompatible (v : value) (input : TFormInput) : bool :=
  if String.eqb (input_type input) "select" then
    match input_items input with
    | Some its =>
        match js_find (λ i, strict_eq (item_val i) v) its with
        | Some _ => true
        | None => false
        end
    | None => false
    end
  else true.

(** ** The yup schema *)

(** A yup schema, as the chain of builder calls that made it. *)
Inductive NumberTest :=
  | TestMin (m : float)
  | TestMax (m : float).

Inductive YupSchema :=
  | YupString
  | YupNumber (tests : list NumberTest)
  | YupArrayOfString.

(** The fields of an object schema. *)
Abbreviation Schema := (gmap string YupSchema).

(** The accumulator of the reduce: an object literal whose properties are
    rules.  Assigning [__proto__] makes the rule its prototype instead of a
    property. *)
Record ShapeObject := {
  shape_own : Schema;
  shape_proto : option YupSchema
}.

Definition empty_shape : ShapeObject :=
  {| shape_own := ∅; shape_proto := None |}.

(** The assignment [object[k] = rule]; a rule is an object. *)
Definition shape_assign (o : ShapeObject) (k : string) (rule : YupSchema)
    : ShapeObject :=
  match shape_own o !! k, String.eqb k "__proto__" with
  | None, true => {| shape_own := shape_own o; shape_proto := Some rule |}
  | _, _ => {| shape_own := <[k := rule]> (shape_own o);
               shape_proto := shape_proto o |}
  end.

(** [yup.object(shape)] takes the own properties of the shape as its
    fields. *)
Definition yup_object (shape : ShapeObject) : Schema := shape_own shape.

(** The [slider] case: [yup.number()], then [.min(input.min)] if [input.min]
    is truthy, then [.max(input.max)] if [input.max] is truthy. *)
Definition sliderSchema (input : TFormInput) : YupSchema :=
  let schema := [] in
  let schema :=
    match input_min input with
    | Some m => if truthy_number m then schema ++ [TestMin m] else schema
    | None => schema
    end in
  let schema :=
    match input_max input with
    | Some m => if truthy_number m then schema ++ [TestMax m] else schema
    | None => schema
    end in
  YupNumber schema.

(** The [switch (input.type)]: the rule assigned to [object[input.id]], if
    any. *)
Definition fieldSchema (input : TFormInput) : option YupSchema :=
  if String.eqb (input_type input) "select" then Some YupString
  else if String.eqb (input_type input) "slider" then Some (sliderSchema input)
  else if String.eqb (input_type input) "tags" then Some YupArrayOfString
  else None.

(** The types that the [switch] has a case for. *)
Definition recognized (input : TFormInput) : bool :=
  String.eqb (input_type input) "select"
  || String.eqb (input_type input) "slider"
  || String.eqb (input_type input) "tags".

(** The props handed to [SettingsForm]. *)
Record IFormProps := {
  form_settings : ref;
  form_schema : Schema
}.

(** ** The reduce callback of [ModelSettings] *)

Section Resolver.

Context `{!Host}.

(** [currentSettings[input.id] !== undefined ? currentSettings[input.id]
     : origSettings[input.id]] *)
Definition settingValue (currentSettings origSettings : JsObject)
    (input : TFormInput) : option value :=
  match js_get currentSettings (input_id input) with
  | Some v => Some v
  | None => js_get origSettings (input_id input)
  end.

(** The value assigned to [settings[input.id]], if any: the carried-over
    value when it is defined and compatible, else [input.initial] when that is
    defined, else no assignment. *)
Definition seedValue (currentSettings origSettings : JsObject)
    (input : TFormInput) : option value :=
  match settingValue currentSettings origSettings input with
  | Some v =>
      if isSettingCompatible v input then Some v else input_initial input
  | None => input_initial input
  end.

(** One call of the callback: it reads the two candidate objects, may assign
    one property of the [settings] object, may assign one property of the
    accumulator [object], and returns the accumulator. *)
Definition reduceStep (settings currentSettings origSettings : ref)
    (acc : ShapeObject * Store) (input : TFormInput) : ShapeObject * Store :=
  let '(object, σ) := acc in
  let σ :=
    match seedValue (deref_object σ currentSettings)
            (deref_object σ origSettings) input with
    | Some v => prop_write settings (input_id input) v σ
    | None => σ
    end in
  let object :=
    match fieldSchema input with
    | Some rule => shape_assign object (input_id input) rule
    | None => object
    end in
  (object, σ).

(** The body of [ModelSettings] once the provider is known, for the inputs of
    that provider. *)
Definition buildForm (inputs : list TFormInput) (pg : IPlayground)
    (σ : Store) : IFormProps * Store :=
  let '(settings, σ) := alloc σ in
  let '(currentSettings, σ) := or_empty (currentSettingsRef pg) σ in
  let '(origSettings, σ) := or_empty (origSettingsRef pg) σ in
  let '(object, σ) :=
    fold_left (reduceStep settings currentSettings origSettings) inputs
      (empty_shape, σ) in
  ({| form_settings := settings; form_schema := yup_object object |}, σ).

(** The resolved value set and the schema of a run, read off its result. *)
Definition resolve (inputs : list TFormInput) (pg : IPlayground)
    (σ : Store) : ILLMSettings :=
  let '(props, σ') := buildForm inputs pg σ in deref σ' (form_settings props).

Definition build (inputs : list TFormInput) (pg : IPlayground)
    (σ : Store) : Schema :=
  form_schema (fst (buildForm inputs pg σ)).

End Resolver.

(** ** Validation *)

(** yup's tests on a number: [min(m)] passes when [value >= m], [max(m)] when
    [value <= m]; [number()] itself rejects [NaN]. *)
Definition numberTestPasses (x : float) (t : NumberTest) : bool :=
  match t with
  | TestMin m => PrimFloat.leb m x
  | TestMax m => PrimFloat.leb x m
  end.

Definition numberAccepts (tests : list NumberTest) (x : float) : bool :=
  negb (PrimFloat.is_nan x) && forallb (numberTestPasses x) tests.

Section ObjectValidation.

Context `{!Host}.

(** How yup judges one field against one rule is yup's business. *)
Variable rule_accepts : YupSchema → option value → bool.

(** An object schema validates its fields, each on its own, against what
    the validated object reads at the name of the field; a property that is
    not a field is not looked at.  The result is the set of fields in
    error. *)
Definition fieldErrors (schema : Schema) (values : JsObject) : gset string :=
  dom (filter (λ kr, rule_accepts kr.2 (js_get values kr.1) = false) schema).

End ObjectValidation.

(** ** [SettingsForm] *)

(** The effect on [formik.values]:
    [setPlayground((old) => ({ ...old, prompt: { ...old.prompt!, settings:
    formik.values } }))].  Spreading an undefined prompt copies nothing. *)
Definition syncSettings (values : ref) (old : IPlayground) : IPlayground :=
  {| pg_providers := pg_providers old;
     pg_prompt :=
       Some {| prompt_provider := pg_prompt old ≫= prompt_provider;
               prompt_settings := Some values;
               prompt_messages := pg_prompt old ≫= prompt_messages;
               prompt_template := pg_prompt old ≫= prompt_template |};
     pg_originalPrompt := pg_originalPrompt old |}.

Definition newline : string := String (ascii_of_nat 10) EmptyString.

(** The text of the alert shown when [providerFound] is false; [null]
    otherwise. *)
Definition providerWarning (pg : IPlayground) (provider : ILLMProvider)
    (providerFound : bool) : option string :=
  if providerFound then None
  else
    Some
      match activeProviderId pg with
      | Some pid =>
          if truthy_string pid then
            pid +:+ " provider is not found, using " +:+ newline +:+ "      "
                +:+ provider_name provider +:+ " instead."
          else
            "Provider not specified, using " +:+ provider_name provider
                +:+ " instead."
      | None =>
          "Provider not specified, using " +:+ provider_name provider
              +:+ " instead."
      end.

(** [s] occurs in [text]. *)
Definition names (text s : string) : Prop :=
  ∃ pre post, text = pre +:+ s +:+ post.

Record ProvidersView := {
  gp_provider : option ILLMProvider;
  gp_providers : list ILLMProvider;
  gp_providerFound : bool
}.

Section Providers.

Context `{!Host}.

(** The provider designated as the default among the known ones. *)
Variable designated_default : list ILLMProvider → option ILLMProvider.

(** Modelled from the spec: [getProviders] of [./helpers] is imported by
    the component but its definition is not part of the sources at hand.
    Per the error-handling design, the provider whose id the session state
    references is looked up among the known providers; when it is absent
    the designated default provider stands in and [providerFound] is
    false. *)
Definition getProviders (pg : IPlayground) : ProvidersView :=
  let providers := default [] (pg_providers pg) in
  let found :=
    activeProviderId pg ≫= λ pid,
      js_find (λ p, String.eqb (provider_id p) pid) providers in
  {| gp_provider :=
       match found with
       | Some p => Some p
       | None => designated_default providers
       end;
     gp_providers := providers;
     gp_providerFound := bool_decide (is_Some found) |}.

(** [ModelSettings]: [null] when there is no provider, else the form props
    built for the provider's inputs. *)
Definition ModelSettings (pg : IPlayground) (σ : Store)
    : option (IFormProps * Store) :=
  match gp_provider (getProviders pg) with
  | None => None
  | Some provider => Some (buildForm (provider_inputs provider) pg σ)
  end.

(** The warning [SettingsForm] renders for a playground state. *)
Definition SettingsForm_warning (pg : IPlayground) : option string :=
  let view := getProviders pg in
  gp_provider view ≫= λ provider,
    providerWarning pg provider (gp_providerFound view).

End Providers.

(** [buildProviderTooltip]: a hint when the orientation of the provider and
    the shape of the prompt differ.  [playground.prompt?.messages] is an
    array when present, and an array is truthy even when empty. *)
Definition buildProviderTooltip (pg : IPlayground) (provider : ILLMProvider)
    : option string :=
  let messages := bool_decide (is_Some (pg_prompt pg ≫= prompt_messages)) in
  if provider_is_chat provider && negb messages then
    Some (provider_name provider
          +:+ " is message-based. This prompt will be wrapped in a message before being sent to "
          +:+ provider_name provider +:+ ".")
  else if negb (provider_is_chat provider) && messages then
    Some (provider_name provider
          +:+ " is prompt-based. The messages will converted to a single prompt before being sent to "
          +:+ provider_name provider +:+ ".")
  else None.

(** One rendered input: the [Box] with its bottom padding and the element
    handed to [FormInput], which spreads the input and adds the value read
    from [formik.values]. *)
Record FormInputBox := {
  box_paddingBottom : Z;
  element_key : string;
  element_input : TFormInput;
  element_id : string;
  element_value : option value
}.

Section Rendering.

Context `{!Host}.

(** [provider.inputs.map((input, index) => ...)], with
    [value: formik.values[input.id]]. *)
Definition renderInputs (inputs : list TFormInput) (values : JsObject)
    : list FormInputBox :=
  imap (λ index input,
          {| box_paddingBottom :=
               if Z.eqb (Z.of_nat index) (Z.of_nat (length inputs) - 1)
               then 2%Z else 0%Z;
             element_key := input_id input;
             element_input := input;
             element_id := input_id input;
             element_value := js_get values (input_id input) |}) inputs.

End Rendering.

(** ** [PromptPlayground] *)

(** The state the component reads: the playground atom, which may be
    undefined, and the restore counter. *)
Record PlaygroundView := {
  view_playground : option IPlayground;
  view_restoredTime : float
}.

(** The updater of [restore]: [{ ...old, prompt: old.originalPrompt }]. *)
Definition restore_update (old : IPlayground) : IPlayground :=
  {| pg_providers := pg_providers old;
     pg_prompt := pg_originalPrompt old;
     pg_originalPrompt := pg_originalPrompt old |}.

(** [restore]: nothing happens without a playground; otherwise the prompt is
    replaced by the original one and the counter goes up by one. *)
Definition restore (st : PlaygroundView) : PlaygroundView :=
  match view_playground st with
  | Some pg =>
      {| view_playground := Some (restore_update pg);
         view_restoredTime := PrimFloat.add (view_restoredTime st) 1%float |}
  | None => st
  end.

(** The updater of [handleClose]: [{ ...old, prompt: undefined }]; spreading
    an undefined playground copies nothing. *)
Definition close_update (old : option IPlayground) : IPlayground :=
  {| pg_providers := old ≫= pg_providers;
     pg_prompt := None;
     pg_originalPrompt := old ≫= pg_originalPrompt |}.

Definition handleClose (st : PlaygroundView) : PlaygroundView :=
  {| view_playground := Some (close_update (view_playground st));
     view_restoredTime := view_restoredTime st |}.

(** [if (!playground?.prompt) return null]: the dialog is rendered only for
    a playground with a prompt. *)
Definition dialogRendered (st : PlaygroundView) : bool :=
  bool_decide (is_Some (view_playground st ≫= pg_prompt)).

(** ** Assigning properties in a loop *)

(** [for x of l: if f(x) is defined then m[key(x)] = f(x)]: what either
    assignment of the reduce callback does to the own properties. *)
Definition assign_step {A V} (key : A → string) (f : A → option V)
    (m : gmap string V) (x : A) : gmap string V :=
  match f x with
  | Some v => <[key x := v]> m
  | None => m
  end.

Definition assign_each {A V} (key : A → string) (f : A → option V)
    (l : list A) (m : gmap string V) : gmap string V :=
  fold_left (assign_step key f) l m.

(** The rule that becomes an own property of the accumulator for an input:
    none when the id is [__proto__]. *)
Definition fieldOwn (input : TFormInput) : option YupSchema :=
  if String.eqb (input_id input) "__proto__" then None else fieldSchema input.

Section SeedLoop.

Context `{!Host}.

(** The value that becomes an own property of [settings] for an input: none
    when the id is [__proto__]. *)
Definition seedOwn (currentSettings origSettings : JsObject)
    (input : TFormInput) : option value :=
  if String.eqb (input_id input) "__proto__" then None
  else seedValue currentSettings origSettings input.

(** The loop as it acts on the [settings] object alone. *)
Definition seed_step (currentSettings origSettings : JsObject)
    (o : JsObject) (input : TFormInput) : JsObject :=
  match seedValue currentSettings origSettings input with
  | Some v => js_assign o (input_id input) v
  | None => o
  end.

Definition seed_object (currentSettings origSettings : JsObject)
    (inputs : list TFormInput) (o : JsObject) : JsObject :=
  fold_left (seed_step currentSettings origSettings) inputs o.

End SeedLoop.

Definition shape_step (o : ShapeObject) (input : TFormInput) : ShapeObject :=
  match fieldSchema input with
  | Some rule => shape_assign o (input_id input) rule
  | None => o
  end.

(** ** Scenarios *)

(** A host whose exotic objects expose nothing.  Every object of the
    scenarios below has [Object.prototype] as its prototype, so that this
    host is never asked. *)
Definition bare_host : Host := {| exotic_get := λ _ _, None |}.

(** The scenario of the design notes. *)
Definition temperature_input : TFormInput :=
  {| input_id := "temperature"; input_type := "slider"; input_items := None;
     input_min := Some 0%float; input_max := Some 2%float;
     input_initial := Some (VNum 1%float) |}.

Definition model_input : TFormInput :=
  {| input_id := "model"; input_type := "select";
     input_items := Some [ {| item_label := None; item_val := IStr "a" |};
                           {| item_label := None; item_val := IStr "b" |} ];
     input_min := None; input_max := None;
     input_initial := Some (VStr "a") |}.

Definition scenario_catalog : list TFormInput :=
  [temperature_input; model_input].

Definition scenario_store : Store :=
  {[ 1%positive := plain_object {[ "temperature" := VNum 3%float ]};
     2%positive := plain_object {[ "model" := VStr "c" ]} ]}.

Definition prompt_with_settings (l : ref) : IPrompt :=
  {| prompt_provider := None; prompt_settings := Some l;
     prompt_messages := None; prompt_template := None |}.

Definition scenario_playground : IPlayground :=
  {| pg_providers := None;
     pg_prompt := Some (prompt_with_settings 1);
     pg_originalPrompt := Some (prompt_with_settings 2) |}.

(** A catalog with an input of a type the schema has no case for, and a
    playground state that references a provider nobody knows. *)
Definition stream_input : TFormInput :=
  {| input_id := "stream"; input_type := "switch"; input_items := None;
     input_min := None; input_max := None;
     input_initial := Some (VBool true) |}.

Definition broken_select_input : TFormInput :=
  {| input_id := "engine"; input_type := "select"; input_items := None;
     input_min := None; input_max := None;
     input_initial := Some (VStr "default") |}.

Definition mixed_catalog : list TFormInput :=
  [temperature_input; model_input; stream_input; broken_select_input].

Definition openai_provider : ILLMProvider :=
  {| provider_id := "openai-chat"; provider_name := "OpenAI";
     provider_inputs := scenario_catalog; provider_is_chat := true |}.

Definition stale_playground : IPlayground :=
  {| pg_providers := Some [openai_provider];
     pg_prompt :=
       Some {| prompt_provider := Some "anthropic";
               prompt_settings := Some 1%positive;
               prompt_messages := None; prompt_template := None |};
     pg_originalPrompt := Some (prompt_with_settings 2) |}.

(** Everything is rejected by every rule: the harshest judge of fields. *)
Definition reject_all (rule : YupSchema) (v : option value) : bool := false.

(** A select without an initial value, a stale current selection and a valid
    original one; object 3 is the form's value set right after seeding. *)
Definition engine_input : TFormInput :=
  {| input_id := "engine"; input_type := "select";
     input_items := Some [ {| item_label := None; item_val := IStr "a" |} ];
     input_min := None; input_max := None; input_initial := None |}.

Definition resurfacing_store : Store :=
  {[ 1%positive := plain_object {[ "engine" := VStr "stale" ]};
     2%positive := plain_object {[ "engine" := VStr "a" ]};
     3%positive := plain_object ∅ ]}.

Definition seeded_store : Store :=
  <[ 3%positive :=
       plain_object {[ "temperature" := VNum 3%float; "model" := VStr "a" ]} ]>
    scenario_store.

(** The same id twice: a slider first, then an input of an unknown type. *)
Definition shadow_input : TFormInput :=
  {| input_id := "temperature"; input_type := "switch"; input_items := None;
     input_min := None; input_max := None;
     input_initial := Some (VBool false) |}.

Definition chat_playground : IPlayground :=
  {| pg_providers := None;
     pg_prompt :=
       Some {| prompt_provider := None; prompt_settings := Some 1%positive;
               prompt_messages := Some []; prompt_template := None |};
     pg_originalPrompt := Some (prompt_with_settings 2) |}.

Definition completion_provider : ILLMProvider :=
  {| provider_id := "openai"; provider_name := "OpenAI";
     provider_inputs := scenario_catalog; provider_is_chat := false |}.

(** Inputs whose ids are names that every plain object inherits, and a
    playground state without any settings. *)
Definition constructor_input : TFormInput :=
  {| input_id := "constructor"; input_type := "slider"; input_items := None;
     input_min := None; input_max := None;
     input_initial := Some (VNum 1%float) |}.

Definition proto_slider_input : TFormInput :=
  {| input_id := "__proto__"; input_type := "slider"; input_items := None;
     input_min := None; input_max := None;
     input_initial := Some (VNum 1%float) |}.

Definition empty_playground : IPlayground :=
  {| pg_providers := None; pg_prompt := None; pg_originalPrompt := None |}.

(** * Properties *)

(** ** Assignment loops *)

Section AssignEach.

Context {A V : Type} (key : A → string) (f : A → option V).

Lemma assign_each_cons x l (m : gmap string V) :
  assign_each key f (x :: l) m = assign_each key f l (assign_step key f m x).
Proof. reflexivity. Qed.

(** A key that no element carries is left alone. *)
Lemma assign_each_lookup_other l (m : gmap string V) k :
  (∀ x, x ∈ l → key x ≠ k) →
  assign_each key f l m !! k = m !! k.
Proof.
  revert m. induction l as [|x l IH]; intros m Hk; [done|].
  rewrite assign_each_cons, IH.
  - unfold assign_step. destruct (f x); [|done].
    apply lookup_insert_ne, Hk. left.
  - intros y Hy. apply Hk. by right.
Qed.

(** With distinct keys, the property of an element is what its own
    iteration assigned, or what was there before when it assigned nothing. *)
Lemma assign_each_lookup_unique l (m : gmap string V) x :
  NoDup (key <$> l) → x ∈ l →
  assign_each key f l m !! key x
  = match f x with Some v => Some v | None => m !! key x end.
Proof.
  revert m. induction l as [|y l IH]; intros m Hnd Hx.
  - by apply elem_of_nil in Hx.
  - rewrite fmap_cons in Hnd. apply NoDup_cons in Hnd as [Hy Hnd].
    rewrite assign_each_cons. apply elem_of_cons in Hx as [->|Hx].
    + rewrite assign_each_lookup_other.
      * unfold assign_step. destruct (f y); [|done]. apply lookup_insert_eq.
      * intros z Hz Heq. apply Hy. rewrite <- Heq.
        by apply list_elem_of_fmap_2.
    + rewrite IH by done. destruct (f x); [done|].
      unfold assign_step. destruct (f y); [|done].
      apply lookup_insert_ne. intros Heq. apply Hy. rewrite Heq.
      by apply list_elem_of_fmap_2.
Qed.

(** Every property of the result was there before or was assigned for some
    element. *)
Lemma assign_each_lookup_is_Some l (m : gmap string V) k :
  is_Some (assign_each key f l m !! k) →
  is_Some (m !! k) ∨ ∃ x, x ∈ l ∧ key x = k ∧ is_Some (f x).
Proof.
  revert m. induction l as [|y l IH]; intros m Hk; [by left|].
  rewrite assign_each_cons in Hk. apply IH in Hk as [Hk|(x & Hx & <- & Hf)].
  - unfold assign_step in Hk. destruct (f y) as [v|] eqn:Hfy; [|by left].
    destruct (decide (key y = k)) as [<-|Hne].
    + right. exists y. split_and!; [left|done|by rewrite Hfy].
    + rewrite lookup_insert_ne in Hk by done. by left.
  - right. exists x. split_and!; [by right|done|done].
Qed.

(** With distinct keys, none of them taken, the result has one more
    property per element that assigned. *)
Lemma assign_each_size l (m : gmap string V) :
  NoDup (key <$> l) → (∀ x, x ∈ l → m !! key x = None) →
  size (assign_each key f l m)
  = size m + length (filter (λ x, is_Some (f x)) l).
Proof.
  revert m. induction l as [|y l IH]; intros m Hnd Hfree.
  - simpl. lia.
  - rewrite fmap_cons in Hnd. apply NoDup_cons in Hnd as [Hy Hnd].
    rewrite assign_each_cons, IH; [|done|].
    + unfold assign_step. rewrite filter_cons.
      destruct (f y) as [v|] eqn:Hfy.
      * rewrite decide_True by done. rewrite map_size_insert_None.
        -- simpl. lia.
        -- apply Hfree. left.
      * rewrite decide_False; [done|]. by intros [? ?].
    + intros x Hx. unfold assign_step. destruct (f y); [|apply Hfree; by right].
      rewrite lookup_insert_ne; [apply Hfree; by right|].
      intros Heq. apply Hy. rewrite Heq. by apply list_elem_of_fmap_2.
Qed.

Lemma assign_each_app l1 l2 (m : gmap string V) :
  assign_each key f (l1 ++ l2) m
  = assign_each key f l2 (assign_each key f l1 m).
Proof. apply fold_left_app. Qed.

(** Elements that carry the key but assign nothing leave it alone. *)
Lemma assign_each_lookup_skip l (m : gmap string V) k :
  (∀ x, x ∈ l → key x = k → f x = None) →
  assign_each key f l m !! k = m !! k.
Proof.
  revert m. induction l as [|x l IH]; intros m Hskip; [done|].
  rewrite assign_each_cons, IH.
  - unfold assign_step. destruct (f x) as [v|] eqn:Hfx; [|done].
    apply lookup_insert_ne. intros Hk.
    rewrite (Hskip x) in Hfx; [done|left|done].
  - intros y Hy. apply Hskip. by right.
Qed.

(** The loop never removes a property. *)
Lemma assign_each_lookup_keeps l (m : gmap string V) k :
  is_Some (m !! k) → is_Some (assign_each key f l m !! k).
Proof.
  revert m. induction l as [|x l IH]; intros m Hk; [done|].
  rewrite assign_each_cons. apply IH. unfold assign_step.
  destruct (f x) as [v|]; [|done].
  destruct (decide (key x = k)) as [->|Hne].
  - rewrite lookup_insert_eq. by eexists.
  - by rewrite lookup_insert_ne.
Qed.

Lemma assign_each_lookup_is_Some_iff l (m : gmap string V) k :
  is_Some (assign_each key f l m !! k)
  ↔ is_Some (m !! k) ∨ ∃ x, x ∈ l ∧ key x = k ∧ is_Some (f x).
Proof.
  split; [apply assign_each_lookup_is_Some|].
  intros [Hk|(x & Hx & <- & [v Hv])]; [by apply assign_each_lookup_keeps|].
  apply list_elem_of_split in Hx as (l1 & l2 & ->).
  rewrite assign_each_app, assign_each_cons.
  apply assign_each_lookup_keeps. unfold assign_step. rewrite Hv.
  rewrite lookup_insert_eq. by eexists.
Qed.

(** The last element that assigns a key decides its value. *)
Lemma assign_each_lookup_last l1 x l2 (m : gmap string V) v :
  f x = Some v → (∀ y, y ∈ l2 → key y = key x → f y = None) →
  assign_each key f (l1 ++ x :: l2) m !! key x = Some v.
Proof.
  intros Hv Hlater. rewrite assign_each_app, assign_each_cons.
  rewrite assign_each_lookup_skip by done.
  unfold assign_step. rewrite Hv. apply lookup_insert_eq.
Qed.

(** With distinct keys the order of the elements does not matter. *)
Lemma assign_each_perm l l' (m : gmap string V) :
  l ≡ₚ l' → NoDup (key <$> l) →
  assign_each key f l m = assign_each key f l' m.
Proof.
  intros Hperm Hnd.
  assert (Hnd' : NoDup (key <$> l')) by by rewrite <- Hperm.
  apply map_eq. intros k.
  destruct (decide (k ∈ key <$> l)) as [Hk|Hk].
  - apply list_elem_of_fmap in Hk as (x & -> & Hx).
    rewrite !assign_each_lookup_unique; [done|done| |done|done].
    by rewrite <- Hperm.
  - rewrite !assign_each_lookup_other; [done| |].
    + intros x Hx <-. apply Hk. apply list_elem_of_fmap_2.
      by rewrite Hperm.
    + intros x Hx <-. apply Hk. by apply list_elem_of_fmap_2.
Qed.

End AssignEach.

Section Properties.

Context `{!Host}.

(** ** Objects *)

Lemma js_get_own o k v : obj_own o !! k = Some v → js_get o k = Some v.
Proof. intros Hk. unfold js_get. by rewrite Hk. Qed.

Lemma js_get_not_inherited o k :
  inherited o k = None → js_get o k = obj_own o !! k.
Proof. intros Hk. unfold js_get. rewrite Hk. by destruct (obj_own o !! k). Qed.

Lemma inherited_proto o : inherited o "__proto__" = Some (proto_value (obj_proto o)).
Proof. reflexivity. Qed.

Lemma not_inherited_not_proto o k : inherited o k = None → k ≠ "__proto__".
Proof. intros Hk ->. by rewrite inherited_proto in Hk. Qed.

(** An assignment adds the own property, unless the name is [__proto__] and
    no own property has that name. *)
Lemma js_assign_own o k v :
  obj_own o !! "__proto__" = None →
  obj_own (js_assign o k v)
  = if String.eqb k "__proto__" then obj_own o else <[k := v]> (obj_own o).
Proof.
  intros Hfree. unfold js_assign.
  destruct (String.eqb_spec k "__proto__") as [->|Hne].
  - rewrite Hfree. by destruct (as_prototype v).
  - by destruct (obj_own o !! k).
Qed.

Lemma shape_assign_own o k rule :
  shape_own o !! "__proto__" = None →
  shape_own (shape_assign o k rule)
  = if String.eqb k "__proto__" then shape_own o else <[k := rule]> (shape_own o).
Proof.
  intros Hfree. unfold shape_assign.
  destruct (String.eqb_spec k "__proto__") as [->|Hne].
  - by rewrite Hfree.
  - by destruct (shape_own o !! k).
Qed.

(** The own properties after the loop on [settings]. *)
Lemma seed_object_own cur orig inputs o :
  obj_own o !! "__proto__" = None →
  obj_own (seed_object cur orig inputs o)
  = assign_each input_id (seedOwn cur orig) inputs (obj_own o).
Proof.
  revert o. induction inputs as [|p inputs IH]; intros o Hfree; [done|].
  rewrite assign_each_cons. unfold seed_object. cbn [fold_left].
  fold (seed_object cur orig inputs (seed_step cur orig o p)).
  assert (Hstep : obj_own (seed_step cur orig o p)
                  = assign_step input_id (seedOwn cur orig) (obj_own o) p).
  { unfold seed_step, assign_step, seedOwn.
    destruct (seedValue cur orig p) as [v|].
    - rewrite js_assign_own by done.
      by destruct (String.eqb (input_id p) "__proto__").
    - by destruct (String.eqb (input_id p) "__proto__"). }
  rewrite IH, Hstep; [done|]. rewrite Hstep.
  unfold assign_step, seedOwn.
  destruct (String.eqb_spec (input_id p) "__proto__") as [Heq|Hne]; [done|].
  destruct (seedValue cur orig p); [|done]. by rewrite lookup_insert_ne.
Qed.

(** The own properties of the accumulator after the loop. *)
Lemma shape_loop_own inputs o :
  shape_own o !! "__proto__" = None →
  shape_own (fold_left shape_step inputs o)
  = assign_each input_id fieldOwn inputs (shape_own o).
Proof.
  revert o. induction inputs as [|p inputs IH]; intros o Hfree; [done|].
  rewrite assign_each_cons. cbn [fold_left].
  assert (Hstep : shape_own (shape_step o p)
                  = assign_step input_id fieldOwn (shape_own o) p).
  { unfold shape_step, assign_step, fieldOwn.
    destruct (fieldSchema p) as [rule|].
    - rewrite shape_assign_own by done.
      by destruct (String.eqb (input_id p) "__proto__").
    - by destruct (String.eqb (input_id p) "__proto__"). }
  rewrite IH, Hstep; [done|]. rewrite Hstep.
  unfold assign_step, fieldOwn.
  destruct (String.eqb_spec (input_id p) "__proto__") as [Heq|Hne]; [done|].
  destruct (fieldSchema p); [|done]. by rewrite lookup_insert_ne.
Qed.

(** ** The store *)

Lemma alloc_fresh (σ : Store) : σ !! (alloc σ).1 = None.
Proof. simpl. apply not_elem_of_dom, is_fresh. Qed.

Lemma deref_object_insert_ne (σ : Store) l l' o :
  l ≠ l' → deref_object (<[l := o]> σ) l' = deref_object σ l'.
Proof. intros Hne. unfold deref_object. by rewrite lookup_insert_ne. Qed.

Lemma deref_object_insert_eq (σ : Store) l o :
  deref_object (<[l := o]> σ) l = o.
Proof. unfold deref_object. by rewrite lookup_insert_eq. Qed.

Lemma currentValues_own pg (σ : Store) :
  currentValues pg σ = obj_own (currentObject pg σ).
Proof.
  unfold currentValues, currentObject. by destruct (currentSettingsRef pg).
Qed.

Lemma originalValues_own pg (σ : Store) :
  originalValues pg σ = obj_own (originalObject pg σ).
Proof.
  unfold originalValues, originalObject. by destruct (origSettingsRef pg).
Qed.

Lemma closedb_current pg (σ : Store) l :
  closedb pg σ = true → currentSettingsRef pg = Some l → is_Some (σ !! l).
Proof.
  unfold closedb, settings_refs. intros Hc Hl. rewrite Hl in Hc.
  simpl in Hc. apply andb_prop in Hc as [Hc _].
  by apply bool_decide_eq_true in Hc.
Qed.

Lemma closedb_orig pg (σ : Store) l :
  closedb pg σ = true → origSettingsRef pg = Some l → is_Some (σ !! l).
Proof.
  unfold closedb, settings_refs. intros Hc Hl. rewrite Hl in Hc.
  rewrite forallb_app in Hc. apply andb_prop in Hc as [_ Hc].
  simpl in Hc. apply andb_prop in Hc as [Hc _].
  by apply bool_decide_eq_true in Hc.
Qed.

(** ** The reduce loop *)

(** The accumulator of the loop does not depend on the store. *)
Lemma reduce_schema settings cur orig inputs (object : ShapeObject) (σ : Store) :
  (fold_left (reduceStep settings cur orig) inputs (object, σ)).1
  = fold_left shape_step inputs object.
Proof.
  revert object σ. induction inputs as [|p inputs IH]; intros object σ; [done|].
  simpl. by rewrite IH.
Qed.

(** When the [settings] object is neither of the two objects read, the loop
    only rewrites [settings], and what it reads never changes under it. *)
Lemma reduce_store settings cur orig inputs (object : ShapeObject)
    (σ : Store) o0 :
  settings ≠ cur → settings ≠ orig → σ !! settings = Some o0 →
  (fold_left (reduceStep settings cur orig) inputs (object, σ)).2
  = <[settings :=
        seed_object (deref_object σ cur) (deref_object σ orig) inputs o0]> σ.
Proof.
  intros Hc Ho. revert object σ o0.
  induction inputs as [|p inputs IH]; intros object σ o0 Hs.
  - simpl. by rewrite insert_id.
  - unfold seed_object. cbn [fold_left reduceStep].
    fold (seed_object (deref_object σ cur) (deref_object σ orig) inputs
            (seed_step (deref_object σ cur) (deref_object σ orig) o0 p)).
    unfold seed_step.
    destruct (seedValue (deref_object σ cur) (deref_object σ orig) p)
      as [v|] eqn:Hv.
    + unfold prop_write.
      rewrite (IH _ _ (js_assign o0 (input_id p) v)).
      * rewrite !deref_object_insert_ne by done. by rewrite insert_insert_eq.
      * unfold deref_object. rewrite Hs. simpl. apply lookup_insert_eq.
    + by apply IH.
Qed.

(** ** [buildForm] *)

Lemma buildForm_settings_ref inputs pg (σ : Store) :
  form_settings (buildForm inputs pg σ).1 = fresh (dom σ).
Proof.
  unfold buildForm, alloc.
  destruct (or_empty (currentSettingsRef pg) _) as [c σ2].
  destruct (or_empty (origSettingsRef pg) _) as [o σ3].
  by destruct (fold_left _ _ _).
Qed.

Lemma buildForm_schema inputs pg (σ : Store) :
  form_schema (buildForm inputs pg σ).1
  = assign_each input_id fieldOwn inputs ∅.
Proof.
  unfold buildForm, alloc.
  destruct (or_empty (currentSettingsRef pg) _) as [c σ2].
  destruct (or_empty (origSettingsRef pg) _) as [o σ3].
  pose proof (reduce_schema (fresh (dom σ)) c o inputs empty_shape σ3) as Hs.
  destruct (fold_left _ _ _) as [object σ4]. simpl in *. rewrite Hs.
  unfold yup_object. by rewrite shape_loop_own.
Qed.

Lemma build_eq inputs pg (σ : Store) :
  build inputs pg σ = assign_each input_id fieldOwn inputs ∅.
Proof. apply buildForm_schema. Qed.

(** [o || {}] reads as the object behind [o], or as an empty object that did
    not exist before; either way nothing that existed is touched. *)
Lemma or_empty_spec o (σ0 σ : Store) :
  (∀ l, o = Some l → is_Some (σ0 !! l)) →
  (∀ l, is_Some (σ0 !! l) → σ !! l = σ0 !! l) →
  (∀ l, is_Some (σ !! l) → (or_empty o σ).2 !! l = σ !! l)
  ∧ (∀ l, is_Some (σ !! l) → σ0 !! l = None → (or_empty o σ).1 ≠ l)
  ∧ is_Some ((or_empty o σ).2 !! (or_empty o σ).1)
  ∧ deref_object (or_empty o σ).2 (or_empty o σ).1
    = from_option (deref_object σ0) empty_object o.
Proof.
  intros Ho Hext. destruct o as [l|]; simpl.
  - specialize (Ho l eq_refl). split_and!.
    + done.
    + intros l' _ Hnone ->. rewrite Hnone in Ho. by destruct Ho.
    + by rewrite Hext.
    + unfold deref_object. by rewrite Hext.
  - split_and!.
    + intros l Hl. apply lookup_insert_ne. intros <-.
      pose proof (alloc_fresh σ) as Hf. simpl in Hf. rewrite Hf in Hl.
      by destruct Hl.
    + intros l Hl _ <-.
      pose proof (alloc_fresh σ) as Hf. simpl in Hf. rewrite Hf in Hl.
      by destruct Hl.
    + rewrite lookup_insert_eq. by eexists.
    + apply deref_object_insert_eq.
Qed.

(** The store after [buildForm]: the new [settings] object is what the loop
    made of an empty object, reading the two settings objects as they were
    before the call, and every object that existed before the call is as it
    was. *)
Lemma buildForm_store inputs pg (σ : Store) :
  closedb pg σ = true →
  (buildForm inputs pg σ).2 !! fresh (dom σ)
  = Some (seed_object (currentObject pg σ) (originalObject pg σ) inputs
            empty_object)
  ∧ (∀ l, is_Some (σ !! l) → (buildForm inputs pg σ).2 !! l = σ !! l).
Proof.
  intros Hclosed. unfold buildForm, alloc.
  set (s := fresh (dom σ)). set (σ1 := <[s := empty_object]> σ).
  assert (Hs : σ !! s = None) by apply (alloc_fresh σ).
  assert (Hext1 : ∀ l, is_Some (σ !! l) → σ1 !! l = σ !! l).
  { intros l Hl. apply lookup_insert_ne. intros <-. rewrite Hs in Hl.
    by destruct Hl. }
  assert (Hs1 : σ1 !! s = Some empty_object) by apply lookup_insert_eq.
  destruct (or_empty_spec (currentSettingsRef pg) σ σ1)
    as (Hext2 & Hne2 & Hin2 & Hd2);
    [intros l; by apply closedb_current | done |].
  destruct (or_empty (currentSettingsRef pg) σ1) as [c σ2]. simpl in *.
  assert (Hext02 : ∀ l, is_Some (σ !! l) → σ2 !! l = σ !! l).
  { intros l Hl. rewrite Hext2; [by apply Hext1|]. by rewrite Hext1. }
  destruct (or_empty_spec (origSettingsRef pg) σ σ2)
    as (Hext3 & Hne3 & Hin3 & Hd3);
    [intros l; by apply closedb_orig | done |].
  destruct (or_empty (origSettingsRef pg) σ2) as [o σ3]. simpl in *.
  assert (Hsc : s ≠ c).
  { intros Heq. by apply (Hne2 s); [rewrite Hs1; eexists| |]. }
  assert (Hs2 : σ2 !! s = Some empty_object).
  { rewrite Hext2; [done|]. rewrite Hs1. by eexists. }
  assert (Hso : s ≠ o).
  { intros Heq. by apply (Hne3 s); [rewrite Hs2; eexists| |]. }
  assert (Hs3 : σ3 !! s = Some empty_object).
  { rewrite Hext3; [done|]. rewrite Hs2. by eexists. }
  assert (Hdc : deref_object σ3 c = currentObject pg σ).
  { unfold currentObject. rewrite <- Hd2. unfold deref_object.
    by rewrite Hext3. }
  pose proof (reduce_store s c o inputs empty_shape σ3 empty_object
                Hsc Hso Hs3) as Hfold.
  destruct (fold_left _ _ _) as [object σ4]. simpl in *. subst σ4.
  rewrite Hdc, Hd3. split.
  - apply lookup_insert_eq.
  - intros l Hl. rewrite lookup_insert_ne.
    + rewrite Hext3; [by apply Hext02|]. by rewrite Hext02.
    + intros <-. rewrite Hs in Hl. by destruct Hl.
Qed.

(** The resolved value set is what the loop assigned as own properties. *)
Lemma resolve_eq inputs pg (σ : Store) :
  closedb pg σ = true →
  resolve inputs pg σ
  = assign_each input_id
      (seedOwn (currentObject pg σ) (originalObject pg σ)) inputs ∅.
Proof.
  intros Hclosed. unfold resolve.
  pose proof (buildForm_store inputs pg σ Hclosed) as [Hs _].
  pose proof (buildForm_settings_ref inputs pg σ) as Hr.
  destruct (buildForm inputs pg σ) as [props σ']. simpl in *.
  unfold deref, deref_object. rewrite Hr, Hs. simpl.
  by rewrite seed_object_own.
Qed.

(** With distinct ids, the own property for an input is what its iteration
    assigned. *)
Lemma resolve_lookup_unique inputs pg (σ : Store) p :
  closedb pg σ = true → NoDup (input_id <$> inputs) → p ∈ inputs →
  resolve inputs pg σ !! input_id p
  = seedOwn (currentObject pg σ) (originalObject pg σ) p.
Proof.
  intros Hclosed Hnd Hp.
  rewrite resolve_eq, assign_each_lookup_unique by done.
  rewrite lookup_empty. by destruct (seedOwn _ _ p).
Qed.

Lemma seedOwn_ne cur orig p :
  input_id p ≠ "__proto__" → seedOwn cur orig p = seedValue cur orig p.
Proof.
  intros Hne. unfold seedOwn. apply String.eqb_neq in Hne. by rewrite Hne.
Qed.

Lemma fieldOwn_ne p : input_id p ≠ "__proto__" → fieldOwn p = fieldSchema p.
Proof.
  intros Hne. unfold fieldOwn. apply String.eqb_neq in Hne. by rewrite Hne.
Qed.

(** ** Compatibility *)

Lemma isSettingCompatible_select v input its :
  input_type input = "select" → input_items input = Some its →
  isSettingCompatible v input = true
  ↔ ∃ i, i ∈ its ∧ strict_eq (item_val i) v = true.
Proof.
  intros Ht Hi. unfold isSettingCompatible, js_find. rewrite Ht, Hi. simpl.
  destruct (find _ its) as [i|] eqn:Hfind.
  - apply find_some in Hfind as [Hin Heq]. split; [|done].
    intros _. exists i. split; [by apply list_elem_of_In|done].
  - split; [done|]. intros (i & Hin & Heq).
    apply list_elem_of_In in Hin.
    pose proof (find_none _ _ Hfind i Hin) as Hno. simpl in Hno. congruence.
Qed.

Lemma isSettingCompatible_no_items v input :
  input_type input = "select" → input_items input = None →
  isSettingCompatible v input = false.
Proof.
  intros Ht Hi. unfold isSettingCompatible. by rewrite Ht, Hi.
Qed.

Lemma isSettingCompatible_other v input :
  input_type input ≠ "select" → isSettingCompatible v input = true.
Proof.
  intros Ht. unfold isSettingCompatible.
  apply String.eqb_neq in Ht. by rewrite Ht.
Qed.

(** On strings, strict equality is equality. *)
Lemma strict_eq_string iv s : strict_eq iv (VStr s) = true ↔ iv = IStr s.
Proof.
  destruct iv as [t|x]; simpl.
  - rewrite String.eqb_eq. split; congruence.
  - split; discriminate.
Qed.

(** An input that rejects some value is a select, and a select accepts no
    object of the host, since no item is identical to one. *)
Lemma incompatible_host v h input :
  isSettingCompatible v input = false →
  isSettingCompatible (VHost h) input = false.
Proof.
  unfold isSettingCompatible, js_find.
  destruct (String.eqb (input_type input) "select"); [|done]. intros _.
  destruct (input_items input) as [its|]; [|done].
  destruct (find _ its) as [i|] eqn:Hfind; [|done].
  apply find_some in Hfind as [_ Heq]. by destruct (item_val i).
Qed.

(** ** The resolver *)

(** C1: for every input [p] of a catalog with distinct ids whose id names
    nothing that the current or the original settings object inherits from
    its prototype chain, the candidate is [current[p.id]] if defined, else
    [original[p.id]]; the resolved value for [p.id] is the candidate when it
    is defined and compatible with [p], else [p.initial] when that is
    defined, and else [p.id] is absent from the resolved value set.  In
    particular a defined, compatible current value wins whatever the original
    and the initial values are, and a defined, compatible original value wins
    when there is no current one. *)
Theorem resolve_priority_chain inputs pg (σ : Store) p :
  closedb pg σ = true → NoDup (input_id <$> inputs) → p ∈ inputs →
  inherited (currentObject pg σ) (input_id p) = None →
  inherited (originalObject pg σ) (input_id p) = None →
  let candidate :=
    match currentValues pg σ !! input_id p with
    | Some v => Some v
    | None => originalValues pg σ !! input_id p
    end in
  resolve inputs pg σ !! input_id p
  = match candidate with
    | Some v => if isSettingCompatible v p then Some v else input_initial p
    | None => input_initial p
    end
  ∧ (∀ v, currentValues pg σ !! input_id p = Some v →
          isSettingCompatible v p = true →
          resolve inputs pg σ !! input_id p = Some v)
  ∧ (∀ v, currentValues pg σ !! input_id p = None →
          originalValues pg σ !! input_id p = Some v →
          isSettingCompatible v p = true →
          resolve inputs pg σ !! input_id p = Some v)
  ∧ (candidate = None → input_initial p = None →
     resolve inputs pg σ !! input_id p = None).
Proof.
  intros Hclosed Hnd Hp Hcur Horig candidate.
  assert (Heq : resolve inputs pg σ !! input_id p
    = match candidate with
      | Some v => if isSettingCompatible v p then Some v else input_initial p
      | None => input_initial p
      end).
  { rewrite resolve_lookup_unique by done.
    rewrite seedOwn_ne by by eapply not_inherited_not_proto.
    unfold seedValue, settingValue.
    rewrite !js_get_not_inherited by done.
    unfold candidate. by rewrite currentValues_own, originalValues_own. }
  split_and!; [exact Heq| | |].
  - intros v Hv Hcompat. rewrite Heq. unfold candidate. by rewrite Hv, Hcompat.
  - intros v Hc Hv Hcompat. rewrite Heq. unfold candidate.
    by rewrite Hc, Hv, Hcompat.
  - intros Hnone Hinit. rewrite Heq, Hnone. exact Hinit.
Qed.

(** C2: the compatibility check depends on the kind: for a select, a value
    is compatible exactly when it is strictly equal ([===]) to the value of
    one of the declared items, which for a string value means that an item
    has that very string as its value; for every other kind every defined
    value is compatible. *)
Theorem isSettingCompatible_kind_specific v input :
  (input_type input = "select" →
     (isSettingCompatible v input = true
      ↔ ∃ i, i ∈ default [] (input_items input)
             ∧ strict_eq (item_val i) v = true)
     ∧ (∀ s, v = VStr s →
          (isSettingCompatible v input = true
           ↔ ∃ i, i ∈ default [] (input_items input)
                  ∧ item_val i = IStr s)))
  ∧ (input_type input ≠ "select" → isSettingCompatible v input = true).
Proof.
  split; [|apply isSettingCompatible_other].
  intros Ht.
  assert (Hiff : isSettingCompatible v input = true
                 ↔ ∃ i, i ∈ default [] (input_items input)
                        ∧ strict_eq (item_val i) v = true).
  { destruct (input_items input) as [its|] eqn:Hi; simpl.
    - by apply isSettingCompatible_select.
    - rewrite isSettingCompatible_no_items by done. split; [done|].
      intros (i & Hin & _). by apply elem_of_nil in Hin. }
  split; [exact Hiff|].
  intros s ->. rewrite Hiff.
  split; intros (i & Hin & Heq); exists i; split; try done;
    by apply strict_eq_string.
Qed.

(** C4: every key of the resolved value set is the id of some input of the
    catalog; a key that no input carries does not appear in the result,
    whatever the current and the original value sets hold for it. *)
Theorem resolve_no_key_leak inputs pg (σ : Store) :
  closedb pg σ = true →
  (∀ k, is_Some (resolve inputs pg σ !! k) →
        ∃ p, p ∈ inputs ∧ input_id p = k)
  ∧ (∀ k, k ∉ (input_id <$> inputs) → resolve inputs pg σ !! k = None).
Proof.
  intros Hclosed. rewrite resolve_eq by done. split.
  - intros k Hk. apply assign_each_lookup_is_Some in Hk as [Hk|Hk].
    + rewrite lookup_empty in Hk. by destruct Hk.
    + destruct Hk as (p & Hp & Hid & _). by exists p.
  - intros k Hk. rewrite assign_each_lookup_other; [apply lookup_empty|].
    intros p Hp <-. apply Hk. by apply list_elem_of_fmap_2.
Qed.

(** C10: for a select whose item list is absent, the compatibility check
    answers false for every candidate value, so that what the resolver
    assigns for that input is its [initial] and never a candidate; in a
    catalog with distinct ids the resolved value of the id is then the
    initial value or the key is left out, and it is the initial value
    whenever the id is not [__proto__]. *)
Theorem select_without_items_incompatible inputs pg (σ : Store) p :
  input_type p = "select" → input_items p = None →
  (∀ v, isSettingCompatible v p = false)
  ∧ (∀ cur orig, seedValue cur orig p = input_initial p)
  ∧ (closedb pg σ = true → NoDup (input_id <$> inputs) → p ∈ inputs →
     (resolve inputs pg σ !! input_id p = input_initial p
      ∨ resolve inputs pg σ !! input_id p = None)
     ∧ (input_id p ≠ "__proto__" →
        resolve inputs pg σ !! input_id p = input_initial p)).
Proof.
  intros Ht Hi.
  assert (Hseed : ∀ cur orig, seedValue cur orig p = input_initial p).
  { intros cur orig. unfold seedValue.
    destruct (settingValue cur orig p) as [v|]; [|done].
    by rewrite isSettingCompatible_no_items. }
  split_and!; [intros v; by apply isSettingCompatible_no_items|exact Hseed|].
  intros Hclosed Hnd Hp. rewrite resolve_lookup_unique by done. split.
  - unfold seedOwn. destruct (String.eqb (input_id p) "__proto__");
      [by right|left; apply Hseed].
  - intros Hne. rewrite seedOwn_ne by done. apply Hseed.
Qed.

(** ** The schema *)

Lemma fieldSchema_recognized p : is_Some (fieldSchema p) ↔ recognized p = true.
Proof.
  unfold fieldSchema, recognized.
  destruct (String.eqb (input_type p) "select"),
    (String.eqb (input_type p) "slider"),
    (String.eqb (input_type p) "tags"); simpl;
    split; try done; try (by intros [? ?]); by eexists.
Qed.

Lemma fieldSchema_unrecognized p : recognized p = false → fieldSchema p = None.
Proof.
  intros Hr. destruct (fieldSchema p) as [rule|] eqn:Hf; [|done].
  assert (recognized p = true) by (apply fieldSchema_recognized; by eexists).
  congruence.
Qed.

Lemma fieldOwn_is_Some p :
  is_Some (fieldOwn p) ↔ recognized p = true ∧ input_id p ≠ "__proto__".
Proof.
  unfold fieldOwn.
  destruct (String.eqb_spec (input_id p) "__proto__") as [Heq|Hne].
  - split; [by intros [? ?]|]. by intros [_ ?].
  - rewrite fieldSchema_recognized. split; [by intros ?|by intros [? _]].
Qed.

(** A field the schema has no rule for is never in error. *)
Lemma fieldErrors_no_rule rule_accepts (schema : Schema) values k :
  schema !! k = None → k ∉ fieldErrors rule_accepts schema values.
Proof.
  intros Hk. unfold fieldErrors. rewrite elem_of_dom.
  intros [rule Hrule]. apply map_lookup_filter_Some in Hrule as [Hrule _].
  congruence.
Qed.

Lemma filter_iff_in {A} (P Q : A → Prop) `{!∀ x, Decision (P x)}
    `{!∀ x, Decision (Q x)} (l : list A) :
  (∀ x, x ∈ l → P x ↔ Q x) → filter P l = filter Q l.
Proof.
  induction l as [|x l IH]; intros Hiff; [done|].
  rewrite !filter_cons.
  assert (Hx : P x ↔ Q x) by (apply Hiff; left).
  rewrite IH by (intros y Hy; apply Hiff; by right).
  destruct (decide (P x)), (decide (Q x)); try done; exfalso; tauto.
Qed.

Lemma fieldOwn_no_proto (inputs : list TFormInput) p :
  "__proto__" ∉ (input_id <$> inputs) → p ∈ inputs →
  fieldOwn p = fieldSchema p.
Proof.
  intros Hno Hp. apply fieldOwn_ne. intros Heq. apply Hno. rewrite <- Heq.
  by apply list_elem_of_fmap_2.
Qed.

(** C5: over a catalog with distinct ids, none of them [__proto__], the
    schema has one entry per input of a recognized type (select, slider,
    tags), namely the rule of that input, and nothing else; an input of any
    other type has no entry, so that a field of such an input is never in
    error, however yup judges rules. *)
Theorem build_one_entry_per_recognized rule_accepts inputs pg (σ : Store) :
  NoDup (input_id <$> inputs) → "__proto__" ∉ (input_id <$> inputs) →
  (∀ p, p ∈ inputs → recognized p = true →
        is_Some (build inputs pg σ !! input_id p)
        ∧ build inputs pg σ !! input_id p = fieldSchema p)
  ∧ (∀ p, p ∈ inputs → recognized p = false →
          build inputs pg σ !! input_id p = None
          ∧ ∀ values,
              input_id p ∉ fieldErrors rule_accepts (build inputs pg σ) values)
  ∧ (∀ k, is_Some (build inputs pg σ !! k) →
          ∃ p, p ∈ inputs ∧ input_id p = k ∧ recognized p = true)
  ∧ size (build inputs pg σ)
    = length (filter (λ p, recognized p = true) inputs).
Proof.
  intros Hnd Hno. rewrite build_eq.
  assert (Hone : ∀ p, p ∈ inputs →
    assign_each input_id fieldOwn inputs ∅ !! input_id p = fieldSchema p).
  { intros p Hp. rewrite assign_each_lookup_unique by done.
    rewrite lookup_empty, (fieldOwn_no_proto inputs) by done.
    by destruct (fieldSchema p). }
  split_and!.
  - intros p Hp Hr. rewrite Hone by done. split; [|done].
    by apply fieldSchema_recognized.
  - intros p Hp Hr.
    assert (Hnone : assign_each input_id fieldOwn inputs ∅ !! input_id p
                    = None).
    { rewrite Hone by done. by apply fieldSchema_unrecognized. }
    split; [done|]. intros values. by apply fieldErrors_no_rule.
  - intros k Hk. apply assign_each_lookup_is_Some in Hk as [Hk|Hk].
    + rewrite lookup_empty in Hk. by destruct Hk.
    + destruct Hk as (p & Hp & Hid & Hf). exists p.
      split_and!; [done|done|]. by apply fieldOwn_is_Some in Hf as [? _].
  - rewrite assign_each_size; [|done|intros; apply lookup_empty].
    rewrite map_size_empty. simpl. f_equal.
    apply filter_iff_in. intros p Hp. rewrite fieldOwn_is_Some.
    split; [by intros [? _]|]. intros Hr. split; [done|].
    intros Heq. apply Hno. rewrite <- Heq. by apply list_elem_of_fmap_2.
Qed.

(** A bound that is declared and truthy is enforced. *)
Lemma sliderSchema_truthy_bounds input tests x :
  sliderSchema input = YupNumber tests → numberAccepts tests x = true →
  (∀ m, input_min input = Some m → truthy_number m = true →
        PrimFloat.leb m x = true)
  ∧ (∀ m, input_max input = Some m → truthy_number m = true →
          PrimFloat.leb x m = true).
Proof.
  unfold sliderSchema, numberAccepts. intros Hs Hacc.
  apply andb_prop in Hacc as [_ Hall].
  rewrite forallb_forall in Hall. injection Hs as <-.
  split; intros m Hm Ht; rewrite Hm, Ht in Hall.
  - destruct (input_max input) as [mx|]; [destruct (truthy_number mx)|];
      apply (Hall (TestMin m)); simpl; auto.
  - destruct (input_min input) as [mn|]; [destruct (truthy_number mn)|];
      apply (Hall (TestMax m)); simpl; auto.
Qed.

(** C3: a slider declared with [min: 0] gets a number rule without a minimum
    test, because [if (input.min)] takes [0] for an absent bound; the rule
    then accepts [-1], which is below the declared minimum. *)
Theorem slider_zero_min_not_enforced :
  fieldSchema temperature_input = Some (YupNumber [TestMax 2%float])
  ∧ build [temperature_input] scenario_playground scenario_store
      !! "temperature" = Some (YupNumber [TestMax 2%float])
  ∧ numberAccepts [TestMax 2%float] (-1)%float = true
  ∧ input_min temperature_input = Some 0%float
  ∧ PrimFloat.leb 0%float (-1)%float = false.
Proof. by vm_compute. Qed.

(** C6: in the scenario, resolution yields exactly
    [{temperature: 3, model: "a"}]: the number 3 is carried over although it
    exceeds the declared maximum 2, since a slider value is always compatible,
    and the string ["c"], which no item has, gives way to the initial ["a"]. *)
Theorem scenario_resolve :
  resolve scenario_catalog scenario_playground scenario_store
  = {[ "temperature" := VNum 3%float; "model" := VStr "a" ]}
  ∧ currentValues scenario_playground scenario_store
    = {[ "temperature" := VNum 3%float ]}
  ∧ originalValues scenario_playground scenario_store
    = {[ "model" := VStr "c" ]}
  ∧ isSettingCompatible (VNum 3%float) temperature_input = true
  ∧ PrimFloat.leb 3%float 2%float = false
  ∧ isSettingCompatible (VStr "c") model_input = false.
Proof. by vm_compute. Qed.

(** ** Purity of the resolver *)

Lemma closedb_preserved pg (σ σ' : Store) :
  (∀ l, is_Some (σ !! l) → σ' !! l = σ !! l) →
  closedb pg σ = true → closedb pg σ' = true.
Proof.
  unfold closedb. intros Hext Hc. rewrite forallb_forall in *.
  intros l Hl. specialize (Hc l Hl).
  apply bool_decide_eq_true in Hc. apply bool_decide_eq_true.
  by rewrite Hext.
Qed.

Lemma objects_preserved pg (σ σ' : Store) :
  (∀ l, is_Some (σ !! l) → σ' !! l = σ !! l) →
  closedb pg σ = true →
  currentObject pg σ' = currentObject pg σ
  ∧ originalObject pg σ' = originalObject pg σ.
Proof.
  intros Hext Hc. unfold currentObject, originalObject. split.
  - destruct (currentSettingsRef pg) as [l|] eqn:Hl; [|done].
    simpl. unfold deref_object. rewrite Hext; [done|].
    by eapply closedb_current.
  - destruct (origSettingsRef pg) as [l|] eqn:Hl; [|done].
    simpl. unfold deref_object. rewrite Hext; [done|].
    by eapply closedb_orig.
Qed.

(** C7: the resolver is pure and deterministic.  A second call on the same
    catalog and playground state, run on the store the first call left,
    yields a deep-equal value set and the same schema; the first call leaves
    every object that existed before it as it was, so both input value sets
    read the same afterwards; each result is an object that did not exist
    before its call, and the second call does not touch the first result. *)
Theorem resolve_pure_fresh inputs pg (σ : Store) :
  closedb pg σ = true →
  let r1 := buildForm inputs pg σ in
  let r2 := buildForm inputs pg r1.2 in
  deref r2.2 (form_settings r2.1) = deref r1.2 (form_settings r1.1)
  ∧ resolve inputs pg r1.2 = resolve inputs pg σ
  ∧ form_schema r2.1 = form_schema r1.1
  ∧ (∀ l, is_Some (σ !! l) → r1.2 !! l = σ !! l)
  ∧ currentValues pg r1.2 = currentValues pg σ
  ∧ originalValues pg r1.2 = originalValues pg σ
  ∧ σ !! form_settings r1.1 = None
  ∧ r1.2 !! form_settings r2.1 = None
  ∧ form_settings r2.1 ≠ form_settings r1.1
  ∧ deref r2.2 (form_settings r1.1) = deref r1.2 (form_settings r1.1).
Proof.
  intros Hclosed r1 r2.
  pose proof (buildForm_store inputs pg σ Hclosed) as [Hs1 Hext1].
  fold r1 in Hs1, Hext1.
  pose proof (closedb_preserved pg σ r1.2 Hext1 Hclosed) as Hclosed1.
  pose proof (objects_preserved pg σ r1.2 Hext1 Hclosed) as [Hcur Horig].
  pose proof (buildForm_store inputs pg r1.2 Hclosed1) as [Hs2 Hext2].
  fold r2 in Hs2, Hext2.
  assert (Hr1 : form_settings r1.1 = fresh (dom σ))
    by apply buildForm_settings_ref.
  assert (Hr2 : form_settings r2.1 = fresh (dom r1.2))
    by apply buildForm_settings_ref.
  assert (Hres : resolve inputs pg r1.2 = resolve inputs pg σ).
  { rewrite !resolve_eq by done. by rewrite Hcur, Horig. }
  assert (Hf2 : r1.2 !! form_settings r2.1 = None).
  { rewrite Hr2. apply (alloc_fresh r1.2). }
  split_and!; try done.
  - rewrite Hr1, Hr2. unfold deref, deref_object. rewrite Hs1, Hs2. simpl.
    by rewrite Hcur, Horig.
  - unfold r2, r1. by rewrite !buildForm_schema.
  - by rewrite !currentValues_own, Hcur.
  - by rewrite !originalValues_own, Horig.
  - rewrite Hr1. apply (alloc_fresh σ).
  - intros Heq. rewrite Heq, Hr1, Hs1 in Hf2. discriminate.
  - unfold deref, deref_object. rewrite Hext2; [done|].
    rewrite Hr1, Hs1. by eexists.
Qed.

(** ** [SettingsForm] *)

(** C8: the sync step makes the form's value set the current values of the
    playground state as a whole: afterwards the state holds the very object
    of the form, so it reads at every key what the form reads and keeps no
    key of the previous value set; the provider id, the original values, the
    known providers and the other prompt properties are as before. *)
Theorem syncSettings_whole_set values old (σ : Store) :
  let new := syncSettings values old in
  currentSettingsRef new = Some values
  ∧ currentValues new σ = deref σ values
  ∧ (∀ k, currentValues new σ !! k = deref σ values !! k)
  ∧ activeProviderId new = activeProviderId old
  ∧ origSettingsRef new = origSettingsRef old
  ∧ originalValues new σ = originalValues old σ
  ∧ pg_originalPrompt new = pg_originalPrompt old
  ∧ pg_providers new = pg_providers old
  ∧ (∀ p, pg_prompt old = Some p →
          pg_prompt new
          = Some {| prompt_provider := prompt_provider p;
                    prompt_settings := Some values;
                    prompt_messages := prompt_messages p;
                    prompt_template := prompt_template p |})
  ∧ pg_prompt new ≫= prompt_messages = pg_prompt old ≫= prompt_messages
  ∧ pg_prompt new ≫= prompt_template = pg_prompt old ≫= prompt_template.
Proof.
  split_and!; try done.
  intros p Hp. unfold syncSettings. by rewrite Hp.
Qed.

(** ** The provider warning *)

Lemma string_app_assoc (a b c : string) : (a +:+ b) +:+ c = a +:+ b +:+ c.
Proof.
  induction a as [|x a IH]; [done|].
  change (String x ((a +:+ b) +:+ c) = String x (a +:+ b +:+ c)).
  by rewrite IH.
Qed.

Lemma js_find_none_iff {A} (f : A → bool) (l : list A) :
  (∀ x, x ∈ l → f x = false) → js_find f l = None.
Proof.
  intros Hall. unfold js_find. destruct (find f l) as [x|] eqn:Hfind; [|done].
  apply find_some in Hfind as [Hin Hfx].
  rewrite Hall in Hfx; [done|]. by apply list_elem_of_In.
Qed.

(** C9: when the playground state references a provider id that no known
    provider has, and a default provider is designated, the panel uses the
    default provider, [providerFound] is false, and the warning is shown with
    a text in which both the missing id and the name of the substituted
    provider occur. *)
Theorem provider_not_found_notice designated_default pg pid d :
  activeProviderId pg = Some pid →
  (∀ p, p ∈ default [] (pg_providers pg) → provider_id p ≠ pid) →
  designated_default (default [] (pg_providers pg)) = Some d →
  gp_provider (getProviders designated_default pg) = Some d
  ∧ gp_providerFound (getProviders designated_default pg) = false
  ∧ ∃ text, SettingsForm_warning designated_default pg = Some text
            ∧ names text pid ∧ names text (provider_name d).
Proof.
  intros Hpid Habsent Hdef.
  assert (Hfind : js_find (λ p, String.eqb (provider_id p) pid)
                    (default [] (pg_providers pg)) = None).
  { apply js_find_none_iff. intros p Hp. apply String.eqb_neq.
    by apply Habsent. }
  unfold SettingsForm_warning, getProviders. rewrite Hpid. simpl.
  rewrite Hfind, Hdef. simpl. split_and!; [done|done|].
  unfold providerWarning. rewrite Hpid.
  destruct (truthy_string pid) eqn:Htruthy; eexists; split_and!; try done.
  - by exists "", (" provider is not found, using " +:+ newline +:+ "      "
                   +:+ provider_name d +:+ " instead.").
  - exists (pid +:+ " provider is not found, using " +:+ newline +:+ "      "),
      " instead.".
    by rewrite !string_app_assoc.
  - apply negb_false_iff, String.eqb_eq in Htruthy as ->.
    by exists "", ("Provider not specified, using " +:+ provider_name d
                   +:+ " instead.").
  - by exists "Provider not specified, using ", " instead.".
Qed.

(** * Beyond distinct ids and plain names *)

Lemma seedValue_is_Some cur orig p :
  is_Some (seedValue cur orig p)
  ↔ is_Some (input_initial p)
    ∨ ∃ v, settingValue cur orig p = Some v ∧ isSettingCompatible v p = true.
Proof.
  unfold seedValue. destruct (settingValue cur orig p) as [v|].
  - destruct (isSettingCompatible v p) eqn:Hc.
    + split; [|by eexists]. intros _. right. by exists v.
    + split; [by left|]. intros [Hi|(w & Hw & Hcw)]; [done|]. congruence.
  - split; [by left|]. by intros [Hi|(w & Hw & _)].
Qed.

Lemma seedOwn_is_Some cur orig p :
  is_Some (seedOwn cur orig p)
  ↔ input_id p ≠ "__proto__" ∧ is_Some (seedValue cur orig p).
Proof.
  unfold seedOwn.
  destruct (String.eqb_spec (input_id p) "__proto__") as [Heq|Hne].
  - split; [by intros [? ?]|]. by intros [? _].
  - split; [by intros ?|by intros [_ ?]].
Qed.

(** X1: when several inputs share an id other than [__proto__], the
    resolved value of that id is the one assigned by the last of them that
    assigns at all; a later input with the same id that has neither a
    compatible candidate nor an initial value does not clear it.  The
    candidate is what the code reads, own or inherited. *)
Theorem resolve_last_assignment_wins l1 p l2 pg (σ : Store) v :
  closedb pg σ = true → input_id p ≠ "__proto__" →
  seedValue (currentObject pg σ) (originalObject pg σ) p = Some v →
  (∀ q, q ∈ l2 → input_id q = input_id p →
        seedValue (currentObject pg σ) (originalObject pg σ) q = None) →
  resolve (l1 ++ p :: l2) pg σ !! input_id p = Some v.
Proof.
  intros Hclosed Hne Hv Hlater. rewrite resolve_eq by done.
  apply assign_each_lookup_last.
  - by rewrite seedOwn_ne.
  - intros q Hq Hid. rewrite seedOwn_ne by congruence. by apply Hlater.
Qed.

(** X2: a key is in the resolved value set exactly when it is not
    [__proto__] and some input with that id has an initial value or a
    compatible candidate, the candidate being what the code reads at the id,
    own or inherited; distinct ids are not needed. *)
Theorem resolve_key_present_iff inputs pg (σ : Store) k :
  closedb pg σ = true →
  is_Some (resolve inputs pg σ !! k)
  ↔ k ≠ "__proto__"
    ∧ ∃ p, p ∈ inputs ∧ input_id p = k
           ∧ (is_Some (input_initial p)
              ∨ ∃ v, settingValue (currentObject pg σ) (originalObject pg σ) p
                     = Some v
                     ∧ isSettingCompatible v p = true).
Proof.
  intros Hclosed. rewrite resolve_eq by done.
  rewrite assign_each_lookup_is_Some_iff. rewrite lookup_empty. split.
  - intros [[? ?]|(p & Hp & Hid & Hs)]; [done|].
    apply seedOwn_is_Some in Hs as [Hne Hs]. split; [congruence|].
    exists p. split_and!; [done|done|]. by apply seedValue_is_Some.
  - intros (Hne & p & Hp & Hid & Hs). right. exists p.
    split_and!; [done|done|]. apply seedOwn_is_Some.
    split; [congruence|]. by apply seedValue_is_Some.
Qed.

(** X3: with distinct ids, the order of the catalog matters neither for the
    resolved value set nor for the schema. *)
Theorem resolve_order_irrelevant inputs inputs' pg (σ : Store) :
  closedb pg σ = true → inputs ≡ₚ inputs' → NoDup (input_id <$> inputs) →
  resolve inputs pg σ = resolve inputs' pg σ
  ∧ build inputs pg σ = build inputs' pg σ.
Proof.
  intros Hclosed Hperm Hnd. rewrite !resolve_eq, !build_eq by done.
  split; by apply assign_each_perm.
Qed.

(** X4: with distinct ids, a value that reaches the form for a select either
    is strictly equal to the value of one of its items or is the initial
    value of the input, which the code does not check against the items. *)
Theorem resolved_select_valid_or_initial inputs pg (σ : Store) p v :
  closedb pg σ = true → NoDup (input_id <$> inputs) → p ∈ inputs →
  input_type p = "select" →
  resolve inputs pg σ !! input_id p = Some v →
  (∃ i, i ∈ default [] (input_items p) ∧ strict_eq (item_val i) v = true)
  ∨ input_initial p = Some v.
Proof.
  intros Hclosed Hnd Hp Ht.
  rewrite resolve_lookup_unique by done. unfold seedOwn.
  destruct (String.eqb (input_id p) "__proto__"); [done|].
  unfold seedValue.
  destruct (settingValue _ _ p) as [w|].
  - destruct (isSettingCompatible w p) eqn:Hc.
    + intros Hv. injection Hv as <-. left.
      destruct (input_items p) as [its|] eqn:Hi;
        [by apply (isSettingCompatible_select w p its)
        |by rewrite isSettingCompatible_no_items in Hc].
    + destruct (input_initial p); intros Hv; [by right|done].
  - destruct (input_initial p); intros Hv; [by right|done].
Qed.

(** X5: in a catalog without the id [__proto__], the keys of the schema
    are exactly the ids of the inputs of a recognized type, also when ids
    repeat: a later input of an unknown type does not remove the rule an
    earlier one with the same id put there. *)
Theorem build_keys_recognized (inputs : list TFormInput) pg (σ : Store) k :
  "__proto__" ∉ (input_id <$> inputs) →
  is_Some (build inputs pg σ !! k)
  ↔ ∃ p, p ∈ inputs ∧ input_id p = k ∧ recognized p = true.
Proof.
  intros Hno.
  rewrite build_eq, assign_each_lookup_is_Some_iff, lookup_empty. split.
  - intros [[? ?]|(p & Hp & Hid & Hs)]; [done|].
    apply fieldOwn_is_Some in Hs as [Hr Hne]. by exists p.
  - intros (p & Hp & Hid & Hs). right. exists p.
    split_and!; [done|done|]. rewrite (fieldOwn_no_proto inputs) by done.
    by apply fieldSchema_recognized.
Qed.

(** X14: [__proto__] never becomes a key of the resolved value set,
    whatever the catalog declares for that id and whatever the settings
    hold. *)
Theorem proto_never_a_key inputs pg (σ : Store) :
  closedb pg σ = true →
  resolve inputs pg σ !! "__proto__" = None.
Proof.
  intros Hclosed. rewrite resolve_eq by done.
  rewrite assign_each_lookup_skip; [apply lookup_empty|].
  intros p _ Hid. unfold seedOwn. by rewrite Hid.
Qed.

(** X15: with distinct ids, the resolved value of an id other than
    [__proto__] follows the priority chain on what the code reads,
    [current[p.id]] and [original[p.id]] as property reads that also find
    what the objects inherit: an inherited value is a defined candidate. *)
Theorem resolve_reads_through_prototype inputs pg (σ : Store) p :
  closedb pg σ = true → NoDup (input_id <$> inputs) → p ∈ inputs →
  input_id p ≠ "__proto__" →
  let candidate :=
    match js_get (currentObject pg σ) (input_id p) with
    | Some v => Some v
    | None => js_get (originalObject pg σ) (input_id p)
    end in
  resolve inputs pg σ !! input_id p
  = match candidate with
    | Some v => if isSettingCompatible v p then Some v else input_initial p
    | None => input_initial p
    end
  ∧ (∀ h, currentValues pg σ !! input_id p = None →
          inherited (currentObject pg σ) (input_id p) = Some (VHost h) →
          input_type p ≠ "select" →
          resolve inputs pg σ !! input_id p = Some (VHost h)).
Proof.
  intros Hclosed Hnd Hp Hne candidate.
  assert (Heq : resolve inputs pg σ !! input_id p
    = match candidate with
      | Some v => if isSettingCompatible v p then Some v else input_initial p
      | None => input_initial p
      end).
  { rewrite resolve_lookup_unique by done. by rewrite seedOwn_ne. }
  split; [exact Heq|].
  intros h Hown Hinh Ht. rewrite Heq. unfold candidate, js_get.
  rewrite <- currentValues_own, Hown, Hinh.
  by rewrite isSettingCompatible_other.
Qed.

(** * Slider rules *)

(** X6: in a catalog with distinct ids, none of them [__proto__], the rule
    of a slider is a number rule that accepts exactly the numbers that are
    not NaN and respect every declared bound that is truthy (neither 0 nor
    NaN); a bound that is absent or falsy constrains nothing. *)
Theorem slider_rule_bounds inputs pg (σ : Store) p :
  NoDup (input_id <$> inputs) → "__proto__" ∉ (input_id <$> inputs) →
  p ∈ inputs → input_type p = "slider" →
  ∃ tests,
    build inputs pg σ !! input_id p = Some (YupNumber tests)
    ∧ ∀ x, numberAccepts tests x = true
           ↔ PrimFloat.is_nan x = false
             ∧ (∀ m, input_min p = Some m → truthy_number m = true →
                     PrimFloat.leb m x = true)
             ∧ (∀ m, input_max p = Some m → truthy_number m = true →
                     PrimFloat.leb x m = true).
Proof.
  intros Hnd Hno Hp Ht.
  assert (Hrule : build inputs pg σ !! input_id p = Some (sliderSchema p)).
  { rewrite build_eq, assign_each_lookup_unique by done.
    rewrite (fieldOwn_no_proto inputs) by done.
    unfold fieldSchema. by rewrite Ht. }
  exists (match sliderSchema p with
          | YupNumber tests => tests
          | _ => []
          end).
  split; [exact Hrule|]. intros x. split.
  - intros Hacc. split.
    + unfold numberAccepts in Hacc. apply andb_prop in Hacc as [Hn _].
      by apply negb_true_iff.
    + by apply (sliderSchema_truthy_bounds p _ x eq_refl).
  - intros (Hn & Hlo & Hhi). unfold numberAccepts, sliderSchema.
    rewrite Hn. simpl.
    destruct (input_min p) as [mn|];
      [destruct (truthy_number mn) eqn:Hmn;
         [specialize (Hlo mn eq_refl Hmn)|clear Hlo]
      |clear Hlo];
      (destruct (input_max p) as [mx|];
         [destruct (truthy_number mx) eqn:Hmx;
            [specialize (Hhi mx eq_refl Hmx)|clear Hhi]
         |clear Hhi]);
      simpl; try rewrite Hlo; try rewrite Hhi; done.
Qed.

(** * Seeding, syncing and seeding again *)

Lemma closedb_sync pg (σ : Store) values :
  closedb pg σ = true → is_Some (σ !! values) →
  closedb (syncSettings values pg) σ = true.
Proof.
  unfold closedb, settings_refs. intros Hc Hv. simpl.
  rewrite forallb_app in Hc. apply andb_prop in Hc as [_ Hc].
  apply andb_true_intro. split; [by apply bool_decide_eq_true|exact Hc].
Qed.

Lemma plainb_objects pg (σ : Store) :
  plainb pg σ = true →
  obj_proto (currentObject pg σ) = ProtoObject
  ∧ obj_proto (originalObject pg σ) = ProtoObject.
Proof.
  unfold plainb, is_plain. intros Hp. apply andb_prop in Hp as [Hc Ho].
  split.
  - by destruct (obj_proto (currentObject pg σ)).
  - by destruct (obj_proto (originalObject pg σ)).
Qed.

(** Seeding from a plain object that holds the seeded values gives the same
    value, unless nothing was seeded over an incompatible current value
    while an original value waits behind it. *)
Lemma seedValue_stable cur orig (seeded : ILLMSettings) p :
  obj_proto cur = ProtoObject → obj_proto orig = ProtoObject →
  input_id p ≠ "__proto__" →
  seeded !! input_id p = seedValue cur orig p →
  is_Some (input_initial p) ∨ obj_own cur !! input_id p = None
    ∨ obj_own orig !! input_id p = None →
  seedValue (plain_object seeded) orig p = seedValue cur orig p.
Proof.
  intros Hpc Hpo Hne Hseeded Hcond.
  assert (Hhost : ∀ v h, isSettingCompatible v p = false →
                         isSettingCompatible (VHost h) p = false)
    by (intros v h; apply incompatible_host).
  apply String.eqb_neq in Hne.
  revert Hseeded. unfold seedValue, settingValue, js_get, inherited.
  simpl. rewrite Hne, Hpc, Hpo. unfold object_prototype_get.
  intros ->.
  destruct (obj_own cur !! input_id p) as [v|] eqn:Hcur;
    destruct (obj_own orig !! input_id p) as [w|] eqn:Horig;
    destruct (input_initial p) as [i|] eqn:Hinit;
    destruct (existsb _ object_prototype_names);
    repeat case_match; simplify_eq; try done; try congruence;
    try (destruct Hcond as [[? ?]|[?|?]]; congruence);
    repeat match goal with
    | Hf : isSettingCompatible ?u p = false,
      Ht : isSettingCompatible (VHost ?h) p = true |- _ =>
        rewrite (Hhost u h Hf) in Ht; discriminate
    end.
Qed.

(** X7: once the form's value set is a plain object that holds what was
    seeded, writing it back with the sync step and seeding again changes
    nothing, provided that every input has an initial value, or no current
    value, or no original value.  Distinct ids and plain settings objects
    in the playground state are assumed. *)
Theorem resolve_stable_after_sync inputs pg (σ : Store) values :
  closedb pg σ = true → plainb pg σ = true →
  NoDup (input_id <$> inputs) →
  σ !! values = Some (plain_object (resolve inputs pg σ)) →
  (∀ p, p ∈ inputs →
        is_Some (input_initial p)
        ∨ currentValues pg σ !! input_id p = None
        ∨ originalValues pg σ !! input_id p = None) →
  resolve inputs (syncSettings values pg) σ = resolve inputs pg σ.
Proof.
  intros Hclosed Hplain Hnd Hvalues Hcond.
  apply plainb_objects in Hplain as [Hpc Hpo].
  assert (Hclosed' : closedb (syncSettings values pg) σ = true).
  { apply closedb_sync; [done|]. rewrite Hvalues. by eexists. }
  assert (Hcur : currentObject (syncSettings values pg) σ
                 = plain_object (resolve inputs pg σ)).
  { unfold currentObject. simpl. unfold deref_object. by rewrite Hvalues. }
  assert (Horig : originalObject (syncSettings values pg) σ
                  = originalObject pg σ) by done.
  apply map_eq. intros k.
  destruct (decide (k ∈ input_id <$> inputs)) as [Hk|Hk].
  - apply list_elem_of_fmap in Hk as (p & -> & Hp).
    rewrite !resolve_lookup_unique by done. rewrite Hcur, Horig.
    unfold seedOwn.
    destruct (String.eqb_spec (input_id p) "__proto__") as [Heq|Hne]; [done|].
    apply seedValue_stable; try done.
    + rewrite resolve_lookup_unique by done. by apply seedOwn_ne.
    + rewrite <- currentValues_own, <- originalValues_own. by apply Hcond.
  - rewrite !resolve_eq by done.
    rewrite !assign_each_lookup_other; [done| |];
      intros p Hp <-; apply Hk; by apply list_elem_of_fmap_2.
Qed.

(** X8: the case left out above.  For an input without initial value, whose
    id no plain object inherits, and for which the code reads an
    incompatible current value and a compatible original value, seeding
    leaves the key out; after the sync step has written the seeded values
    back as a plain object, seeding again brings up the original value. *)
Theorem stale_selection_resurfaces_original inputs pg (σ : Store) values p v w :
  closedb pg σ = true → NoDup (input_id <$> inputs) → p ∈ inputs →
  σ !! values = Some (plain_object (resolve inputs pg σ)) →
  inherited empty_object (input_id p) = None →
  js_get (currentObject pg σ) (input_id p) = Some v →
  isSettingCompatible v p = false →
  js_get (originalObject pg σ) (input_id p) = Some w →
  isSettingCompatible w p = true →
  input_initial p = None →
  resolve inputs pg σ !! input_id p = None
  ∧ resolve inputs (syncSettings values pg) σ !! input_id p = Some w.
Proof.
  intros Hclosed Hnd Hp Hvalues Hplain Hv Hcv Hw Hcw Hinit.
  assert (Hne : input_id p ≠ "__proto__")
    by by eapply not_inherited_not_proto.
  assert (Hclosed' : closedb (syncSettings values pg) σ = true).
  { apply closedb_sync; [done|]. rewrite Hvalues. by eexists. }
  assert (Hfirst : resolve inputs pg σ !! input_id p = None).
  { rewrite resolve_lookup_unique by done. rewrite seedOwn_ne by done.
    unfold seedValue, settingValue. by rewrite Hv, Hcv. }
  assert (Hcur : currentObject (syncSettings values pg) σ
                 = plain_object (resolve inputs pg σ)).
  { unfold currentObject. simpl. unfold deref_object. by rewrite Hvalues. }
  assert (Horig : originalObject (syncSettings values pg) σ
                  = originalObject pg σ) by done.
  split; [exact Hfirst|].
  rewrite resolve_lookup_unique by done. rewrite seedOwn_ne by done.
  unfold seedValue, settingValue. rewrite Hcur, Horig.
  assert (Hread : js_get (plain_object (resolve inputs pg σ)) (input_id p)
                  = None).
  { unfold js_get. simpl. rewrite Hfirst. exact Hplain. }
  by rewrite Hread, Hw, Hcw.
Qed.

(** * Restoring and closing *)

Lemma closedb_restore pg (σ : Store) :
  closedb pg σ = true → closedb (restore_update pg) σ = true.
Proof.
  unfold closedb, settings_refs. intros Hc.
  rewrite forallb_app in Hc. apply andb_prop in Hc as [_ Hc].
  rewrite forallb_app. apply andb_true_intro. by split.
Qed.

(** X9: restoring makes the original prompt the current one: the current
    values and the provider id are those of the original prompt, the original
    prompt and the providers stay, whatever the sync step had written is
    gone, and restoring twice is restoring once.  The dialog stays rendered
    only if there is an original prompt.  Without a playground nothing
    happens. *)
Theorem restore_discards_edits st :
  (view_playground st = None → restore st = st)
  ∧ (∀ pg, view_playground st = Some pg →
       view_playground (restore st) = Some (restore_update pg)
       ∧ view_playground (restore (restore st)) = Some (restore_update pg)
       ∧ dialogRendered (restore st)
         = bool_decide (is_Some (pg_originalPrompt pg))
       ∧ (∀ σ : Store,
            currentValues (restore_update pg) σ = originalValues pg σ
            ∧ originalValues (restore_update pg) σ = originalValues pg σ)
       ∧ activeProviderId (restore_update pg)
         = pg_originalPrompt pg ≫= prompt_provider
       ∧ pg_providers (restore_update pg) = pg_providers pg
       ∧ ∀ values, restore_update (syncSettings values pg)
                   = restore_update pg).
Proof.
  split.
  - intros Hnone. unfold restore. by rewrite Hnone.
  - intros pg Hpg. unfold restore, dialogRendered. rewrite Hpg. simpl.
    by split_and!.
Qed.

(** X10: with distinct ids, seeding after a restore depends on the original
    settings object alone: the value for an input whose id is not
    [__proto__] is what the code reads at the id in the original object, own
    or inherited, when that is defined and compatible, else the initial
    value, else none. *)
Theorem resolve_after_restore inputs pg (σ : Store) p :
  closedb pg σ = true → NoDup (input_id <$> inputs) → p ∈ inputs →
  input_id p ≠ "__proto__" →
  resolve inputs (restore_update pg) σ !! input_id p
  = match js_get (originalObject pg σ) (input_id p) with
    | Some v => if isSettingCompatible v p then Some v else input_initial p
    | None => input_initial p
    end.
Proof.
  intros Hclosed Hnd Hp Hne.
  rewrite resolve_lookup_unique; [|by apply closedb_restore|done|done].
  rewrite seedOwn_ne by done. unfold seedValue, settingValue.
  change (currentObject (restore_update pg) σ) with (originalObject pg σ).
  change (originalObject (restore_update pg) σ) with (originalObject pg σ).
  by destruct (js_get (originalObject pg σ) (input_id p)).
Qed.

(** X11: closing removes the prompt, so the dialog is no longer rendered,
    and keeps the providers and the original prompt; closing twice is closing
    once, and a restore after closing gives the playground a restore without
    closing gives. *)
Theorem handleClose_keeps_original st :
  dialogRendered (handleClose st) = false
  ∧ view_playground (handleClose st) ≫= pg_originalPrompt
    = view_playground st ≫= pg_originalPrompt
  ∧ view_playground (handleClose st) ≫= pg_providers
    = view_playground st ≫= pg_providers
  ∧ handleClose (handleClose st) = handleClose st
  ∧ (∀ pg, view_playground st = Some pg →
       view_playground (restore (handleClose st))
       = view_playground (restore st)).
Proof.
  split_and!; try done.
  intros pg Hpg. unfold restore, handleClose. simpl. by rewrite Hpg.
Qed.

(** * The provider tooltip and the rendered inputs *)

(** X12: the provider select shows a tooltip exactly when the orientation
    of the provider and the shape of the prompt differ: a chat provider with
    a prompt that has no messages is announced as message-based, a
    completion provider with a prompt that has messages (even none in the
    list) as prompt-based; the text begins with the provider's name. *)
Theorem buildProviderTooltip_mismatch pg provider :
  let messages := bool_decide (is_Some (pg_prompt pg ≫= prompt_messages)) in
  (buildProviderTooltip pg provider = None
   ↔ provider_is_chat provider = messages)
  ∧ (provider_is_chat provider = true → messages = false →
     ∃ rest, buildProviderTooltip pg provider
             = Some (provider_name provider +:+ " is message-based." +:+ rest))
  ∧ (provider_is_chat provider = false → messages = true →
     ∃ rest, buildProviderTooltip pg provider
             = Some (provider_name provider +:+ " is prompt-based." +:+ rest)).
Proof.
  intros messages. unfold buildProviderTooltip. fold messages.
  destruct (provider_is_chat provider), messages; simpl;
    (split_and!; [by split|intros; try done..]).
  - by exists (" This prompt will be wrapped in a message before being sent to "
               +:+ provider_name provider +:+ ".").
  - by exists (" The messages will converted to a single prompt before being sent to "
               +:+ provider_name provider +:+ ".").
Qed.

(** X13: the form renders one box per input, in the order of the catalog,
    and exactly the last box has the bottom padding 2, every other one 0;
    the box of an input shows what [formik.values] reads at the id of that
    input: its own property there, else what it inherits, so that a form
    object without such a key still shows a value for an id like
    [constructor]. *)
Theorem renderInputs_layout inputs (values : JsObject) :
  length (renderInputs inputs values) = length inputs
  ∧ ∀ i box, renderInputs inputs values !! i = Some box →
      inputs !! i = Some (element_input box)
      ∧ element_value box
        = match obj_own values !! input_id (element_input box) with
          | Some v => Some v
          | None => inherited values (input_id (element_input box))
          end
      ∧ (obj_own values !! input_id (element_input box) = None →
         obj_proto values = ProtoObject →
         input_id (element_input box) ∈ object_prototype_names →
         element_value box
         = Some (VHost (ObjectPrototypeMember
                          (input_id (element_input box)))))
      ∧ (box_paddingBottom box = 2%Z ↔ S i = length inputs)
      ∧ (box_paddingBottom box = 0%Z ↔ S i ≠ length inputs).
Proof.
  unfold renderInputs. split; [apply length_imap|].
  intros i box Hbox. rewrite list_lookup_imap in Hbox.
  destruct (inputs !! i) as [input|] eqn:Hi; [|done].
  simpl in Hbox. injection Hbox as <-. simpl. split_and!; try done.
  - intros Hown Hproto Hin. unfold js_get, inherited.
    rewrite Hown, Hproto. unfold object_prototype_get.
    assert (Hex : existsb (String.eqb (input_id input)) object_prototype_names
                  = true).
    { apply existsb_exists. exists (input_id input).
      split; [by apply list_elem_of_In|apply String.eqb_refl]. }
    rewrite Hex.
    destruct (String.eqb_spec (input_id input) "__proto__") as [Heq|Hne];
      [|done].
    rewrite Heq in Hin. apply list_elem_of_In in Hin. simpl in Hin.
    intuition discriminate.
  - destruct (Z.eqb_spec (Z.of_nat i) (Z.of_nat (length inputs) - 1));
      split; intros; try done; lia.
  - destruct (Z.eqb_spec (Z.of_nat i) (Z.of_nat (length inputs) - 1));
      split; intros; try done; lia.
Qed.

End Properties.

(** * The theorems at work *)

(** The scenarios run on the bare host. *)
Existing Instance bare_host.

Lemma scenario_ids_distinct : NoDup (input_id <$> mixed_catalog).
Proof. apply (bool_decide_unpack _). vm_compute. exact I. Defined.

Lemma scenario_catalog_ids_distinct : NoDup (input_id <$> scenario_catalog).
Proof. apply (bool_decide_unpack _). vm_compute. exact I. Defined.

Lemma resolve_priority_chain_witness :
  closedb scenario_playground scenario_store = true
  ∧ model_input ∈ mixed_catalog
  ∧ inherited (currentObject scenario_playground scenario_store) "model"
    = None
  ∧ inherited (originalObject scenario_playground scenario_store) "model"
    = None
  ∧ resolve mixed_catalog scenario_playground scenario_store !! "model"
    = Some (VStr "a").
Proof.
  split_and!; [reflexivity| |reflexivity|reflexivity|].
  - apply list_elem_of_further, list_elem_of_here.
  - exact (proj1 (resolve_priority_chain mixed_catalog scenario_playground
                    scenario_store model_input eq_refl scenario_ids_distinct
                    (list_elem_of_further _ _ _ (list_elem_of_here _ _))
                    eq_refl eq_refl)).
Defined.

(** The claim without the condition on the id fails: with no settings at
    all, a slider named [constructor] is seeded with the function that every
    plain object inherits under that name, not with its initial value 1, and
    a slider named [__proto__] gets no key although it has an initial
    value. *)
Lemma resolve_priority_chain_counterexample :
  closedb empty_playground (∅ : Store) = true
  ∧ currentValues empty_playground (∅ : Store) !! "constructor" = None
  ∧ originalValues empty_playground (∅ : Store) !! "constructor" = None
  ∧ input_initial constructor_input = Some (VNum 1%float)
  ∧ resolve [constructor_input] empty_playground (∅ : Store) !! "constructor"
    = Some (VHost (ObjectPrototypeMember "constructor"))
  ∧ resolve [proto_slider_input] empty_playground (∅ : Store) !! "__proto__"
    = None
  ∧ ¬ (resolve [constructor_input] empty_playground (∅ : Store)
         !! input_id constructor_input
       = match
           match currentValues empty_playground (∅ : Store)
                   !! input_id constructor_input with
           | Some v => Some v
           | None => originalValues empty_playground (∅ : Store)
                       !! input_id constructor_input
           end
         with
         | Some v =>
             if isSettingCompatible v constructor_input then Some v
             else input_initial constructor_input
         | None => input_initial constructor_input
         end).
Proof. split_and!; try reflexivity. vm_compute. discriminate. Qed.

Lemma isSettingCompatible_kind_specific_witness :
  (isSettingCompatible (VStr "b") model_input = true
   ↔ ∃ i, i ∈ [ {| item_label := None; item_val := IStr "a" |};
                {| item_label := None; item_val := IStr "b" |} ]
          ∧ item_val i = IStr "b")
  ∧ isSettingCompatible (VStr "b") temperature_input = true.
Proof.
  destruct (isSettingCompatible_kind_specific (VStr "b") model_input)
    as [Hselect _].
  destruct (Hselect eq_refl) as [_ Hstring].
  destruct (isSettingCompatible_kind_specific (VStr "b") temperature_input)
    as [_ Hother].
  split; [exact (Hstring "b" eq_refl)|]. apply Hother. discriminate.
Defined.

Lemma resolve_no_key_leak_witness :
  closedb stale_playground scenario_store = true
  ∧ ("temperature" ∉ (input_id <$> [model_input]))
  ∧ resolve [model_input] stale_playground scenario_store !! "temperature"
    = None.
Proof.
  assert (Hk : "temperature" ∉ (input_id <$> [model_input])).
  { intros Hin. apply list_elem_of_singleton in Hin. discriminate. }
  split_and!; [reflexivity|exact Hk|].
  destruct (resolve_no_key_leak [model_input] stale_playground scenario_store
              eq_refl) as [_ Hleak].
  exact (Hleak "temperature" Hk).
Defined.

Lemma build_one_entry_per_recognized_witness :
  NoDup (input_id <$> mixed_catalog)
  ∧ size (build mixed_catalog scenario_playground scenario_store) = 3
  ∧ build mixed_catalog scenario_playground scenario_store !! "stream" = None
  ∧ "stream" ∉ fieldErrors reject_all
                 (build mixed_catalog scenario_playground scenario_store)
                 (plain_object {[ "stream" := VStr "not a boolean" ]}).
Proof.
  destruct (build_one_entry_per_recognized reject_all mixed_catalog
              scenario_playground scenario_store scenario_ids_distinct)
    as (_ & Hnone & _ & Hsize).
  { apply (bool_decide_unpack _). vm_compute. exact I. }
  destruct (Hnone stream_input) as [Hstream Herr].
  - apply list_elem_of_further, list_elem_of_further, list_elem_of_here.
  - reflexivity.
  - split_and!; [exact scenario_ids_distinct|exact Hsize|exact Hstream|].
    exact (Herr _).
Defined.

(** The claim without the condition on the id fails: the catalog of one
    slider named [__proto__] has one input of a recognized type, and the
    schema built for it has no entry. *)
Lemma build_one_entry_per_recognized_counterexample :
  NoDup (input_id <$> [proto_slider_input])
  ∧ recognized proto_slider_input = true
  ∧ build [proto_slider_input] empty_playground (∅ : Store) !! "__proto__"
    = None
  ∧ size (build [proto_slider_input] empty_playground (∅ : Store)) = 0
  ∧ ¬ (size (build [proto_slider_input] empty_playground (∅ : Store))
       = length (filter (λ p, recognized p = true) [proto_slider_input])).
Proof.
  split_and!; try reflexivity.
  - apply (bool_decide_unpack _). vm_compute. exact I.
  - vm_compute. discriminate.
Qed.

Lemma resolve_pure_fresh_witness :
  closedb scenario_playground scenario_store = true
  ∧ resolve scenario_catalog scenario_playground
      (buildForm scenario_catalog scenario_playground scenario_store).2
    = resolve scenario_catalog scenario_playground scenario_store
  ∧ (buildForm scenario_catalog scenario_playground scenario_store).2
      !! 1%positive = scenario_store !! 1%positive.
Proof.
  pose proof (resolve_pure_fresh scenario_catalog scenario_playground
                scenario_store eq_refl) as H.
  cbv zeta in H. destruct H as (_ & Hsame & _ & Hkept & _).
  split_and!; [reflexivity|exact Hsame|].
  apply Hkept. by eexists.
Defined.

Lemma provider_not_found_notice_witness :
  activeProviderId stale_playground = Some "anthropic"
  ∧ gp_provider (getProviders head stale_playground) = Some openai_provider
  ∧ gp_providerFound (getProviders head stale_playground) = false
  ∧ ∃ text, SettingsForm_warning head stale_playground = Some text
            ∧ names text "anthropic" ∧ names text "OpenAI".
Proof.
  split; [reflexivity|].
  apply (provider_not_found_notice head stale_playground "anthropic"
           openai_provider).
  - reflexivity.
  - intros p Hp. apply list_elem_of_singleton in Hp. rewrite Hp. discriminate.
  - reflexivity.
Defined.

Lemma select_without_items_incompatible_witness :
  js_get (currentObject scenario_playground resurfacing_store) "engine"
  = Some (VStr "stale")
  ∧ isSettingCompatible (VStr "stale") broken_select_input = false
  ∧ resolve [temperature_input; broken_select_input] scenario_playground
      resurfacing_store !! "engine"
    = Some (VStr "default").
Proof.
  destruct (select_without_items_incompatible
              [temperature_input; broken_select_input]
              scenario_playground resurfacing_store broken_select_input
              eq_refl eq_refl) as (Hnever & _ & Hfallback).
  split_and!; [reflexivity|exact (Hnever _)|].
  destruct Hfallback as [_ Hinit].
  - reflexivity.
  - apply (bool_decide_unpack _). vm_compute. exact I.
  - apply list_elem_of_further, list_elem_of_here.
  - apply Hinit. discriminate.
Defined.

Lemma resolve_last_assignment_wins_witness :
  resolve ([temperature_input] ++ broken_select_input :: [engine_input])
    scenario_playground scenario_store !! "engine"
  = Some (VStr "default").
Proof.
  apply (resolve_last_assignment_wins [temperature_input] broken_select_input
           [engine_input] scenario_playground scenario_store (VStr "default")).
  - reflexivity.
  - discriminate.
  - reflexivity.
  - intros q Hq _. apply list_elem_of_singleton in Hq. rewrite Hq.
    reflexivity.
Defined.

Lemma resolve_key_present_iff_witness :
  closedb empty_playground (∅ : Store) = true
  ∧ is_Some (resolve [constructor_input] empty_playground (∅ : Store)
               !! "constructor").
Proof.
  split; [reflexivity|].
  apply (resolve_key_present_iff [constructor_input] empty_playground
           (∅ : Store) "constructor" eq_refl).
  split; [discriminate|].
  exists constructor_input. split_and!.
  - apply list_elem_of_here.
  - reflexivity.
  - right. eexists. split; reflexivity.
Defined.

Lemma resolve_order_irrelevant_witness :
  resolve scenario_catalog scenario_playground scenario_store
  = resolve [model_input; temperature_input] scenario_playground
      scenario_store
  ∧ build scenario_catalog scenario_playground scenario_store
    = build [model_input; temperature_input] scenario_playground
        scenario_store.
Proof.
  apply (resolve_order_irrelevant scenario_catalog
           [model_input; temperature_input] scenario_playground
           scenario_store eq_refl).
  - apply perm_swap.
  - exact scenario_catalog_ids_distinct.
Defined.

Lemma resolved_select_valid_or_initial_witness :
  (∃ i, i ∈ default [] (input_items model_input)
        ∧ strict_eq (item_val i) (VStr "a") = true)
  ∨ input_initial model_input = Some (VStr "a").
Proof.
  apply (resolved_select_valid_or_initial scenario_catalog
           scenario_playground scenario_store model_input (VStr "a") eq_refl
           scenario_catalog_ids_distinct).
  - apply list_elem_of_further, list_elem_of_here.
  - reflexivity.
  - reflexivity.
Defined.

Lemma build_keys_recognized_witness :
  is_Some (build [temperature_input; shadow_input] scenario_playground
             scenario_store !! "temperature").
Proof.
  apply (build_keys_recognized [temperature_input; shadow_input]
           scenario_playground scenario_store "temperature").
  { apply (bool_decide_unpack _). vm_compute. exact I. }
  exists temperature_input. split_and!; [apply list_elem_of_here|..];
    reflexivity.
Defined.

Lemma proto_never_a_key_witness :
  input_initial proto_slider_input = Some (VNum 1%float)
  ∧ resolve [proto_slider_input] empty_playground (∅ : Store) !! "__proto__"
    = None.
Proof.
  split; [reflexivity|].
  apply (proto_never_a_key [proto_slider_input] empty_playground (∅ : Store)).
  reflexivity.
Defined.

Lemma resolve_reads_through_prototype_witness :
  currentValues empty_playground (∅ : Store) !! "constructor" = None
  ∧ resolve [constructor_input] empty_playground (∅ : Store) !! "constructor"
    = Some (VHost (ObjectPrototypeMember "constructor")).
Proof.
  split; [reflexivity|].
  destruct (resolve_reads_through_prototype [constructor_input]
              empty_playground (∅ : Store) constructor_input) as [_ Hhost].
  - reflexivity.
  - apply (bool_decide_unpack _). vm_compute. exact I.
  - apply list_elem_of_here.
  - discriminate.
  - apply Hhost; [reflexivity|reflexivity|discriminate].
Defined.

Lemma slider_rule_bounds_witness :
  ∃ tests,
    build scenario_catalog scenario_playground scenario_store !! "temperature"
    = Some (YupNumber tests)
    ∧ ∀ x, numberAccepts tests x = true
           ↔ PrimFloat.is_nan x = false
             ∧ (∀ m, input_min temperature_input = Some m →
                     truthy_number m = true → PrimFloat.leb m x = true)
             ∧ (∀ m, input_max temperature_input = Some m →
                     truthy_number m = true → PrimFloat.leb x m = true).
Proof.
  apply (slider_rule_bounds scenario_catalog scenario_playground
           scenario_store temperature_input scenario_catalog_ids_distinct).
  - apply (bool_decide_unpack _). vm_compute. exact I.
  - apply list_elem_of_here.
  - reflexivity.
Defined.

Lemma resolve_stable_after_sync_witness :
  seeded_store !! 3%positive
  = Some (plain_object
            (resolve scenario_catalog scenario_playground seeded_store))
  ∧ resolve scenario_catalog (syncSettings 3 scenario_playground) seeded_store
    = resolve scenario_catalog scenario_playground seeded_store.
Proof.
  split; [reflexivity|].
  apply (resolve_stable_after_sync scenario_catalog scenario_playground
           seeded_store 3%positive eq_refl eq_refl
           scenario_catalog_ids_distinct eq_refl).
  intros p Hp. left. apply elem_of_cons in Hp as [Hp|Hp].
  - rewrite Hp. eexists. reflexivity.
  - apply list_elem_of_singleton in Hp. rewrite Hp. eexists. reflexivity.
Defined.

Lemma stale_selection_resurfaces_original_witness :
  resolve [engine_input] scenario_playground resurfacing_store !! "engine"
  = None
  ∧ resolve [engine_input] (syncSettings 3 scenario_playground)
      resurfacing_store !! "engine"
    = Some (VStr "a").
Proof.
  apply (stale_selection_resurfaces_original [engine_input]
           scenario_playground resurfacing_store 3%positive engine_input
           (VStr "stale") (VStr "a")); try reflexivity.
  - apply (bool_decide_unpack _). vm_compute. exact I.
  - apply list_elem_of_here.
Defined.

Lemma restore_discards_edits_witness :
  view_playground
    (restore {| view_playground := Some scenario_playground;
                view_restoredTime := 0%float |})
  = Some (restore_update scenario_playground)
  ∧ restore_update (syncSettings 3 scenario_playground)
    = restore_update scenario_playground.
Proof.
  destruct (restore_discards_edits
              {| view_playground := Some scenario_playground;
                 view_restoredTime := 0%float |}) as [_ Hsome].
  destruct (Hsome scenario_playground eq_refl)
    as (Hview & _ & _ & _ & _ & _ & Hsync).
  split; [exact Hview|exact (Hsync 3%positive)].
Defined.

Lemma resolve_after_restore_witness :
  resolve scenario_catalog (restore_update scenario_playground) scenario_store
    !! "temperature"
  = Some (VNum 1%float).
Proof.
  apply (resolve_after_restore scenario_catalog scenario_playground
           scenario_store temperature_input eq_refl
           scenario_catalog_ids_distinct).
  - apply list_elem_of_here.
  - discriminate.
Defined.

Lemma handleClose_keeps_original_witness :
  view_playground
    (restore (handleClose {| view_playground := Some scenario_playground;
                             view_restoredTime := 0%float |}))
  = view_playground
      (restore {| view_playground := Some scenario_playground;
                  view_restoredTime := 0%float |}).
Proof.
  destruct (handleClose_keeps_original
              {| view_playground := Some scenario_playground;
                 view_restoredTime := 0%float |}) as (_ & _ & _ & _ & Hre).
  exact (Hre scenario_playground eq_refl).
Defined.

Lemma buildProviderTooltip_mismatch_witness :
  ∃ rest, buildProviderTooltip chat_playground completion_provider
          = Some ("OpenAI" +:+ " is prompt-based." +:+ rest).
Proof.
  destruct (buildProviderTooltip_mismatch chat_playground completion_provider)
    as (_ & _ & Hprompt).
  apply Hprompt; reflexivity.
Defined.

Lemma renderInputs_layout_witness :
  ∃ box, renderInputs [model_input; constructor_input]
           (plain_object {[ "model" := VStr "a" ]})
         !! 1 = Some box
         ∧ box_paddingBottom box = 2%Z
         ∧ element_value box
           = Some (VHost (ObjectPrototypeMember "constructor")).
Proof.
  eexists. split; [reflexivity|].
  destruct (renderInputs_layout [model_input; constructor_input]
              (plain_object {[ "model" := VStr "a" ]}))
    as [_ Hboxes].
  destruct (Hboxes 1 _ eq_refl) as (_ & _ & Hhost & Hpad & _).
  split; [apply Hpad; reflexivity|].
  apply Hhost; [reflexivity|reflexivity|].
  apply list_elem_of_here.
Defined.
